(** * promptflow: trace collector, seed-question tool, experiment controller
      and call recorder

    A shallow embedding of

    - [promptflow/_telemetry/tracer_manager.py] (the in-memory trace store,
      the tree console exporter and the process-wide tracer),
    - [generate_test_data_flow/generate_question.py],
    - the fixtures of [tests/executor/conftest.py] and the polling helper of
      [tests/sdk_cli_test/e2etests/test_experiment.py],

    together with models of the experiment controller and of the call
    recorder, whose implementation is exercised by those tests but lives
    outside the files at hand.

    Python exceptions are values of [PyError]; a computation that may raise
    returns a [Result]. *)

From Stdlib Require Import ZArith QArith.QArith_base Lia.
From stdpp Require Import gmap strings list fin_maps pretty.

Local Open Scope string_scope.
Local Open Scope list_scope.

(** ** Python exceptions and results *)

Inductive PyError : Type :=
| KeyError (key : string)
| ValueError (msg : string)
| RecursionError
| RunOperationError (msg : string)
| RecordNotFoundError (msg : string).

Inductive Result (A : Type) : Type :=
| Ok (a : A)
| Raise (e : PyError).

Arguments Ok {A} a.
Arguments Raise {A} e.

Definition bind_result {A B : Type} (r : Result A) (k : A → Result B) : Result B :=
  match r with
  | Ok a => k a
  | Raise e => Raise e
  end.

Notation "'let?' x ':=' r 'in' k" := (bind_result r (λ x, k))
  (at level 10, x name, r at level 100, k at level 200).

(** [list.remove(x)]: drops the first element equal to [x]; [None] stands for
    the [ValueError] Python raises when there is none. *)
Fixpoint list_remove {A : Type} `{EqDecision A} (x : A) (l : list A) : option (list A) :=
  match l with
  | [] => None
  | y :: l' => if decide (y = x) then Some l' else cons y <$> list_remove x l'
  end.

(** [s * n] on a Python string. *)
Fixpoint str_mul (s : string) (n : nat) : string :=
  match n with
  | 0 => ""
  | S n' => s +:+ str_mul s n'
  end.

(** [sep.join(parts)]. *)
Fixpoint str_join (sep : string) (parts : list string) : string :=
  match parts with
  | [] => ""
  | [p] => p
  | p :: rest => p +:+ sep +:+ str_join sep rest
  end.

(** [needle in haystack] on Python strings. *)
Fixpoint str_prefix (p s : string) : bool :=
  match p, s with
  | EmptyString, _ => true
  | String a p', String b s' => bool_decide (a = b) && str_prefix p' s'
  | String _ _, EmptyString => false
  end.

Fixpoint str_contains (needle haystack : string) : bool :=
  str_prefix needle haystack ||
  match haystack with
  | EmptyString => false
  | String _ rest => str_contains needle rest
  end.

(** ** tracer_manager.py *)

Module tracer_manager.

(** Values an OpenTelemetry attribute can hold, as far as the comparison with
    a run id (a [str]) can tell them apart: only a [str] is ever [==] to a
    [str]. *)
Inductive AttributeValue : Type :=
| AttrStr (s : string)
| AttrInt (z : Z)
| AttrBool (b : bool).

#[global] Instance AttributeValue_eq_dec : EqDecision AttributeValue.
Proof. solve_decision. Defined.

Record SpanContext : Type := {
  trace_id : Z;
  span_id : Z
}.

#[global] Instance SpanContext_eq_dec : EqDecision SpanContext.
Proof. solve_decision. Defined.

(** A span object. [ReadableSpan] defines no [__eq__], so [==] (as used by
    [list.remove]) is object identity; [obj_id] is that identity, and since a
    span is immutable once emitted, two records denote the same object exactly
    when they are equal. *)
Record ReadableSpan : Type := {
  obj_id : nat;
  name : string;
  context : SpanContext;
  parent : option SpanContext;
  start_time : Z;
  attributes : gmap string AttributeValue
}.

#[global] Instance ReadableSpan_eq_dec : EqDecision ReadableSpan.
Proof. solve_decision. Defined.

(** [value == run_id] for an attribute value and a [str]. *)
Definition attr_eq_str (v : AttributeValue) (run_id : string) : bool :=
  match v with
  | AttrStr s => bool_decide (s = run_id)
  | AttrInt _ | AttrBool _ => false
  end.

(** *** MemoryTraceStore *)

Record MemoryTraceStore : Type := { _spans : list ReadableSpan }.

(** [__init__] *)
Definition MemoryTraceStore_init : MemoryTraceStore := {| _spans := [] |}.

Definition add_spans (spans : list ReadableSpan) (self : MemoryTraceStore) : MemoryTraceStore :=
  {| _spans := _spans self ++ spans |}.

(** The comprehension
    [[span for span in spans if span.attributes["root_run_id"] == run_id]];
    the subscript raises [KeyError] at the first span without the key. *)
Fixpoint select_run_id (run_id : string) (spans : list ReadableSpan) : Result (list ReadableSpan) :=
  match spans with
  | [] => Ok []
  | span :: rest =>
      match attributes span !! "root_run_id" with
      | None => Raise (KeyError "root_run_id")
      | Some v =>
          let? tail := select_run_id run_id rest in
          Ok (if attr_eq_str v run_id then span :: tail else tail)
      end
  end.

Definition get_spans_from_run_id (run_id : string) (self : MemoryTraceStore) : Result (list ReadableSpan) :=
  select_run_id run_id (_spans self).

(** The loop [for span in spans: self._spans.remove(span)]; the store keeps
    the removals already made when [remove] raises. *)
Fixpoint remove_each (spans : list ReadableSpan) (self : MemoryTraceStore) : MemoryTraceStore * Result unit :=
  match spans with
  | [] => (self, Ok tt)
  | span :: rest =>
      match list_remove span (_spans self) with
      | None => (self, Raise (ValueError "list.remove(x): x not in list"))
      | Some l => remove_each rest {| _spans := l |}
      end
  end.

Definition pop_spans_from_run_id (run_id : string) (self : MemoryTraceStore) : MemoryTraceStore * Result (list ReadableSpan) :=
  match get_spans_from_run_id run_id self with
  | Raise e => (self, Raise e)
  | Ok spans =>
      match remove_each spans self with
      | (self', Ok _) => (self', Ok spans)
      | (self', Raise e) => (self', Raise e)
      end
  end.

(** [pop_spans_from_run_id] is two statements and takes no lock: between
    [spans = self.get_spans_from_run_id(run_id)] and the loop that removes
    them, another thread can run a call on the same store. [other] is what
    that call does to the store; with [other] the identity this is
    [pop_spans_from_run_id]. *)
Definition pop_spans_interleaved (other : MemoryTraceStore → MemoryTraceStore) (run_id : string) (self : MemoryTraceStore) : MemoryTraceStore * Result (list ReadableSpan) :=
  match get_spans_from_run_id run_id self with
  | Raise e => (self, Raise e)
  | Ok spans =>
      match remove_each spans (other self) with
      | (self', Ok _) => (self', Ok spans)
      | (self', Raise e) => (self', Raise e)
      end
  end.

Definition clear (self : MemoryTraceStore) : MemoryTraceStore := {| _spans := [] |}.

(** The span carries the attribute [root_run_id]. *)
Definition has_root_run_id (span : ReadableSpan) : Prop :=
  is_Some (attributes span !! "root_run_id").

(** The span's [root_run_id] is the string [run_id]. *)
Definition of_run (run_id : string) (span : ReadableSpan) : Prop :=
  attributes span !! "root_run_id" = Some (AttrStr run_id).

#[global] Instance of_run_dec run_id span : Decision (of_run run_id span).
Proof. unfold of_run. apply _. Defined.

(** Ingesting batches one after the other, from the empty store. *)
Definition ingest (batches : list (list ReadableSpan)) : MemoryTraceStore :=
  foldl (λ store batch, add_spans batch store) MemoryTraceStore_init batches.

(** The spans of the spec's example, [root(id=1, parent=null)] and
    [child(id=2, parent=1)] of one run, a span of another run, and a span
    that lacks the attribute. *)
Definition root_span : ReadableSpan :=
  {| obj_id := 0; name := "root"; context := {| trace_id := 7; span_id := 1 |};
     parent := None; start_time := 100;
     attributes := {[ "root_run_id" := AttrStr "run-1" ]} |}.

Definition child_span : ReadableSpan :=
  {| obj_id := 1; name := "child"; context := {| trace_id := 7; span_id := 2 |};
     parent := Some {| trace_id := 7; span_id := 1 |}; start_time := 110;
     attributes := {[ "root_run_id" := AttrStr "run-1" ]} |}.

Definition other_span : ReadableSpan :=
  {| obj_id := 2; name := "other"; context := {| trace_id := 8; span_id := 3 |};
     parent := None; start_time := 120;
     attributes := {[ "root_run_id" := AttrStr "run-2" ]} |}.

Definition bare_span : ReadableSpan :=
  {| obj_id := 3; name := "bare"; context := {| trace_id := 9; span_id := 4 |};
     parent := None; start_time := 130;
     attributes := ∅ |}.

(** *** TreeConsoleSpanExporter *)

Record TreeConsoleSpanExporter : Type := {
  span_tree : gmap (option Z) (list ReadableSpan);
  span_start_times : gmap Z Z
}.

Definition TreeConsoleSpanExporter_init : TreeConsoleSpanExporter :=
  {| span_tree := ∅; span_start_times := ∅ |}.

(** [span.parent.span_id if span.parent else None]; a [SpanContext] is a
    non-empty tuple, hence truthy. *)
Definition parent_id_of (span : ReadableSpan) : option Z :=
  match parent span with
  | Some ctx => Some (span_id ctx)
  | None => None
  end.

(** One iteration of the loop of [export]. *)
Definition file_span (self : TreeConsoleSpanExporter) (span : ReadableSpan) : TreeConsoleSpanExporter :=
  let parent_id := parent_id_of span in
  let times := <[span_id (context span) := start_time span]> (span_start_times self) in
  let tree :=
    match span_tree self !! parent_id with
    | None => <[parent_id := []]> (span_tree self)
    | Some _ => span_tree self
    end in
  {| span_tree := alter (λ children, children ++ [span]) parent_id tree;
     span_start_times := times |}.

Definition file_spans (spans : list ReadableSpan) (self : TreeConsoleSpanExporter) : TreeConsoleSpanExporter :=
  foldl file_span self spans.

(** The tab of ["\ttrace_id:"]. *)
Definition tab : string := String (Ascii.ascii_of_nat 9) "".

Definition render_line (level : nat) (span : ReadableSpan) : string :=
  let indent := str_mul "  " level in
  let sections_to_print :=
    [ name span;
      tab +:+ "trace_id:";
      pretty (trace_id (context span));
      "span_id:";
      pretty (span_id (context span)) ] in
  indent +:+ "- " +:+ str_join " " sections_to_print.

(** The loop [for span in spans: print(line); self._print_tree(...)] of
    [_print_tree]: [line] is what is printed for a span, [recurse] the
    recursive call on it. The result pairs what was written to stdout with
    the outcome; what is already printed stays printed when a deeper call
    raises. *)
Fixpoint for_each_span {A : Type} (line : ReadableSpan → A)
    (recurse : ReadableSpan → list A * Result unit) (spans : list ReadableSpan)
    : list A * Result unit :=
  match spans with
  | [] => ([], Ok tt)
  | span :: rest =>
      match recurse span with
      | (out, Ok _) =>
          let '(out', r) := for_each_span line recurse rest in
          (line span :: out ++ out', r)
      | (out, Raise e) => (line span :: out, Raise e)
      end
  end.

(** [_print_tree]. [depth] is the number of frames the interpreter still
    allows: the call raises [RecursionError] when none is left. *)
Fixpoint _print_tree (depth : nat) (tree : gmap (option Z) (list ReadableSpan))
    (parent_id : option Z) (level : nat) : list string * Result unit :=
  match depth with
  | 0 => ([], Raise RecursionError)
  | S depth' =>
      match tree !! parent_id with
      | None => ([], Ok tt)
      | Some spans =>
          for_each_span (render_line level)
            (λ span, _print_tree depth' tree (Some (span_id (context span))) (S level))
            spans
      end
  end.

(** The spans [_print_tree] prints, in the order of their lines, each with
    the level it is printed at. *)
Fixpoint printed_spans (depth : nat) (tree : gmap (option Z) (list ReadableSpan))
    (parent_id : option Z) (level : nat) : list (nat * ReadableSpan) * Result unit :=
  match depth with
  | 0 => ([], Raise RecursionError)
  | S depth' =>
      match tree !! parent_id with
      | None => ([], Ok tt)
      | Some spans =>
          for_each_span (pair level)
            (λ span, printed_spans depth' tree (Some (span_id (context span))) (S level))
            spans
      end
  end.

(** The spans filed under a key, none when the key is absent. *)
Definition children (tree : gmap (option Z) (list ReadableSpan)) (parent_id : option Z) : list ReadableSpan :=
  default [] (tree !! parent_id).

(** Every span of the tree sits under the key of its parent. *)
Definition filed (tree : gmap (option Z) (list ReadableSpan)) : Prop :=
  ∀ parent_id span, span ∈ children tree parent_id → parent_id_of span = parent_id.

(** A listing of spans with levels in which the spans at level [level] are
    children of [parent_id], and every deeper span comes after a span one
    level up that is its parent. *)
Definition parents_first (parent_id : option Z) (level : nat) (entries : list (nat * ReadableSpan)) : Prop :=
  ∀ j lvl span, entries !! j = Some (lvl, span) →
    (lvl = level ∧ parent_id_of span = parent_id)
    ∨ (level < lvl
       ∧ ∃ i up, i < j ∧ entries !! i = Some (pred lvl, up)
                 ∧ parent_id_of span = Some (span_id (context up))).

(** The span ids of a list of spans. *)
Definition span_ids (spans : list ReadableSpan) : list Z :=
  (λ span, span_id (context span)) <$> spans.

(** The way from a key up to a root through the spans of [all]:
    [ancestors] are the span ids met, nearest first. *)
Inductive lineage (all : list ReadableSpan) : option Z → list Z → Prop :=
| lineage_root : lineage all None []
| lineage_step (span : ReadableSpan) (ancestors : list Z) :
    span ∈ all →
    lineage all (parent_id_of span) ancestors →
    lineage all (Some (span_id (context span))) (span_id (context span) :: ancestors).

(** A second span with the id of [root_span], whose parent is that id: with
    it the tree has a cycle below the root. *)
Definition echo_span : ReadableSpan :=
  {| obj_id := 4; name := "echo"; context := {| trace_id := 7; span_id := 1 |};
     parent := Some {| trace_id := 7; span_id := 1 |}; start_time := 140;
     attributes := ∅ |}.

Definition export (depth : nat) (spans : list ReadableSpan) (self : TreeConsoleSpanExporter)
    : TreeConsoleSpanExporter * (list string * Result unit) :=
  let self' := file_spans spans self in
  (self', _print_tree depth (span_tree self') None 0).

(** *** get_tracer *)

Inductive SpanExporter : Type :=
| MdcExporter
| TreeConsoleExporter
| memory_exporter.

Inductive SpanProcessor : Type :=
| BatchSpanProcessor (exporter : SpanExporter)
| SimpleSpanProcessor (exporter : SpanExporter).

(** [opentelemetry.sdk.resources.SERVICE_NAME] *)
Definition SERVICE_NAME : string := "service.name".

Record TracerProvider : Type := {
  provider_obj : nat;
  resource : list (string * string);
  span_processors : list SpanProcessor
}.

Record Tracer : Type := {
  instrumenting_module_name : string;
  tracer_provider : TracerProvider
}.

#[global] Instance SpanExporter_eq_dec : EqDecision SpanExporter.
Proof. solve_decision. Defined.
#[global] Instance SpanProcessor_eq_dec : EqDecision SpanProcessor.
Proof. solve_decision. Defined.
#[global] Instance TracerProvider_eq_dec : EqDecision TracerProvider.
Proof. solve_decision. Defined.
#[global] Instance Tracer_eq_dec : EqDecision Tracer.
Proof. solve_decision. Defined.

(** The state [get_tracer] reads and writes: the module global
    [_tracer_instance], the providers constructed so far, and the arguments
    of the calls to [trace.set_tracer_provider], oldest first. The body runs
    under [_tracer_lock], so calls are serialized and one call is one step. *)
Record TracerState : Type := {
  _tracer_instance : option Tracer;
  constructed : list TracerProvider;
  registered : list TracerProvider
}.

Definition initial_tracer_state : TracerState :=
  {| _tracer_instance := None; constructed := []; registered := [] |}.

Definition add_span_processor (p : SpanProcessor) (provider : TracerProvider) : TracerProvider :=
  {| provider_obj := provider_obj provider;
     resource := resource provider;
     span_processors := span_processors provider ++ [p] |}.

Definition get_tracer (name : string) (st : TracerState) : TracerState * Tracer :=
  match _tracer_instance st with
  | None =>
      let resource := [(SERVICE_NAME, "promptflow")] in
      let provider :=
        {| provider_obj := length (constructed st);
           resource := resource;
           span_processors := [] |} in
      let provider := add_span_processor (BatchSpanProcessor MdcExporter) provider in
      let provider := add_span_processor (SimpleSpanProcessor TreeConsoleExporter) provider in
      let provider := add_span_processor (SimpleSpanProcessor memory_exporter) provider in
      let tracer := {| instrumenting_module_name := name; tracer_provider := provider |} in
      ({| _tracer_instance := Some tracer;
          constructed := constructed st ++ [provider];
          registered := registered st ++ [provider] |}, tracer)
  | Some tracer => (st, tracer)
  end.

(** Successive calls, in order; returns the final state and what each call
    returned. *)
Fixpoint get_tracer_calls (names : list string) (st : TracerState) : TracerState * list Tracer :=
  match names with
  | [] => (st, [])
  | name :: rest =>
      let '(st', t) := get_tracer name st in
      let '(st'', ts) := get_tracer_calls rest st' in
      (st'', t :: ts)
  end.

End tracer_manager.

(** ** generate_question.py *)

Module generate_question.

Section generate_seed_question.

(** The connection object, Python's [float], the values [llm_call] returns
    and the state of the outside world are left open; [py_str] embeds a
    Python [str] among the values. *)
Context {Connection PyFloat Value World : Type}.
Variable py_str : string → Value.

(** [utils.llm_call(connection, model, prompt, temperature=..., max_tokens=...)]:
    an effectful callable, taken as given. *)
Variable llm_call : Connection → string → string → PyFloat → Z → World → Value * World.

(** [not context] for [context : Optional[str]]: [None] and [""] are falsy. *)
Definition not_context (context : option string) : bool :=
  match context with
  | None => true
  | Some s => bool_decide (s = "")
  end.

Definition generate_seed_question (connection : Connection) (model_or_deployment_name : string)
    (generate_question_prompt : string) (context : option string) (temperature : PyFloat)
    (max_tokens : Z) (w : World) : Value * World :=
  if not_context context then (py_str "", w)
  else
    let '(seed_question, w') :=
      llm_call connection model_or_deployment_name generate_question_prompt temperature max_tokens w in
    (seed_question, w').

End generate_seed_question.

(** An [llm_call] for examples: the world is the number of invocations so
    far, and the answer is the prompt. *)
Definition counting_llm_call (connection : unit) (model prompt : string) (temperature : Q)
    (max_tokens : Z) (calls : nat) : string * nat :=
  (prompt, S calls).

End generate_question.

(** ** tests/executor/conftest.py *)

Module conftest.

(** What a patch target is bound to: the [tool] decorator as imported, or
    [mock_tool] applied to one. *)
Inductive ToolDecorator : Type :=
| original_tool
| mock_tool (wrapped : ToolDecorator).

#[global] Instance ToolDecorator_eq_dec : EqDecision ToolDecorator.
Proof. solve_decision. Defined.

(** The part of the process the fixtures touch: the mode flags of
    [RecordStorage], the file its instance was opened on, and the current
    binding of every dotted name. *)
Record TestEnv : Type := {
  is_replaying_mode : bool;
  is_recording_mode : bool;
  storage_file : option string;
  bindings : gmap string ToolDecorator
}.

(** The object a dotted name is bound to; a name the fixtures have not
    rebound is bound to the decorator as imported. *)
Definition binding (env : TestEnv) (name : string) : ToolDecorator :=
  default original_tool (bindings env !! name).

(** A [unittest.mock] patcher: [temp_original] is what [start] found at the
    target and [stop] puts back. *)
Record Patcher : Type := {
  target : string;
  new : ToolDecorator;
  temp_original : option ToolDecorator
}.

(** [patch(target, new)] *)
Definition patch (target : string) (new : ToolDecorator) : Patcher :=
  {| target := target; new := new; temp_original := None |}.

Definition RECORDINGS_TEST_CONFIGS_ROOT : string := "tests/test_configs/node_recordings".

Definition override_recording_file (env : TestEnv) : TestEnv :=
  if is_replaying_mode env || is_recording_mode env then
    {| is_replaying_mode := is_replaying_mode env;
       is_recording_mode := is_recording_mode env;
       storage_file := Some (RECORDINGS_TEST_CONFIGS_ROOT +:+ "/executor_node_cache.shelve");
       bindings := bindings env |}
  else env.

Definition patch_targets : list string :=
  ["promptflow._core.tool.tool"; "promptflow._internal.tool"; "promptflow.tool"].

Definition rebind (name : string) (value : ToolDecorator) (env : TestEnv) : TestEnv :=
  {| is_replaying_mode := is_replaying_mode env;
     is_recording_mode := is_recording_mode env;
     storage_file := storage_file env;
     bindings := <[name := value]> (bindings env) |}.

(** [patcher.start()]: remembers what the target is bound to and binds it to
    [new]. *)
Definition patcher_start (env : TestEnv) (p : Patcher) : TestEnv * Patcher :=
  (rebind (target p) (new p) env,
   {| target := target p; new := new p; temp_original := Some (binding env (target p)) |}).

(** [patcher.stop()]: binds the target to what [start] found; a patcher that
    was not started has nothing to put back (the fixtures stop started
    patchers only). *)
Definition patcher_stop (env : TestEnv) (p : Patcher) : TestEnv :=
  match temp_original p with
  | Some original => rebind (target p) original env
  | None => env
  end.

(** [setup_recording]. The import
    [from promptflow._core.tool import tool as original_tool] reads what that
    name is bound to when the function runs. *)
Definition setup_recording (env : TestEnv) : TestEnv * list Patcher :=
  let env := override_recording_file env in
  if is_replaying_mode env || is_recording_mode env then
    let imported_tool := binding env "promptflow._core.tool.tool" in
    let mocked_tool := mock_tool imported_tool in
    foldl (λ '(env, patches) target,
             let '(env', patcher) := patcher_start env (patch target mocked_tool) in
             (env', patches ++ [patcher]))
          (env, []) patch_targets
  else (env, []).

(** The [finally] block of the fixture [recording_setup]. *)
Definition recording_setup_finally (patches : list Patcher) (env : TestEnv) : TestEnv :=
  foldl patcher_stop env patches.

(** *** The process classes *)

(** The classes a [Process] name can be bound to: [multiprocessing.Process]
    as imported, the class of a start method's context, and the two mocks. *)
Inductive ProcessClass : Type :=
| BaseProcess
| ContextProcess (start_method : string)
| MockSpawnProcess
| MockForkServerProcess.

#[global] Instance ProcessClass_eq_dec : EqDecision ProcessClass.
Proof. solve_decision. Defined.

(** What [multiprocessing.Process] is bound to: a class, or (after the
    teardown of [process_override]) a dictionary of classes. *)
Inductive ModuleValue : Type :=
| AClass (c : ProcessClass)
| ADict (d : gmap string ProcessClass).

#[global] Instance ModuleValue_eq_dec : EqDecision ModuleValue.
Proof. solve_decision. Defined.

(** The part of [multiprocessing] the fixture touches:
    [get_all_start_methods()], [get_start_method()], the [Process] attribute
    of each context that was assigned to, and [multiprocessing.Process]. *)
Record Multiprocessing : Type := {
  all_start_methods : list string;
  start_method : string;
  context_Process : gmap string ProcessClass;
  mp_Process : ModuleValue
}.

(** [multiprocessing.get_context(method).Process] *)
Definition get_context_Process (method : string) (mp : Multiprocessing) : ProcessClass :=
  default (ContextProcess method) (context_Process mp !! method).

Definition set_context_Process (method : string) (c : ProcessClass) (mp : Multiprocessing) : Multiprocessing :=
  {| all_start_methods := all_start_methods mp;
     start_method := start_method mp;
     context_Process := <[method := c]> (context_Process mp);
     mp_Process := mp_Process mp |}.

Definition set_mp_Process (v : ModuleValue) (mp : Multiprocessing) : Multiprocessing :=
  {| all_start_methods := all_start_methods mp;
     start_method := start_method mp;
     context_Process := context_Process mp;
     mp_Process := v |}.

Definition start_methods : list string := ["spawn"; "forkserver"].

(** One iteration of the loop of [process_override] before the [yield];
    [original_process_class] travels with the state. *)
Definition override_method (state : Multiprocessing * gmap string ProcessClass) (method : string)
    : Multiprocessing * gmap string ProcessClass :=
  let '(mp, original_process_class) := state in
  if bool_decide (method ∈ all_start_methods mp) then
    let original_process_class :=
      <[method := get_context_Process method mp]> original_process_class in
    let mp := set_context_Process method MockSpawnProcess mp in
    let mp :=
      if bool_decide (method = start_method mp)
      then set_mp_Process (AClass MockSpawnProcess) mp else mp in
    (mp, original_process_class)
  else (mp, original_process_class).

(** The part of [process_override] before the [yield]: returns
    [original_process_class] with the state. *)
Definition process_override_setup (mp : Multiprocessing) : Multiprocessing * gmap string ProcessClass :=
  foldl override_method (mp, ∅) start_methods.

(** One iteration of the loop of the [finally] block. A start method that is
    available was saved by the setup, so the subscript does not raise; the
    last assignment binds [multiprocessing.Process] to the dictionary. *)
Definition restore_method (original_process_class : gmap string ProcessClass)
    (mp : Multiprocessing) (method : string) : Multiprocessing :=
  if bool_decide (method ∈ all_start_methods mp) then
    match original_process_class !! method with
    | Some c =>
        let mp := set_context_Process method c mp in
        if bool_decide (method = start_method mp)
        then set_mp_Process (ADict original_process_class) mp else mp
    | None => mp
    end
  else mp.

(** The [finally] block of [process_override]. *)
Definition process_override_finally (original_process_class : gmap string ProcessClass)
    (mp : Multiprocessing) : Multiprocessing :=
  foldl (restore_method original_process_class) mp start_methods.

(** The start methods whose context the fixture overrides: those of
    [start_methods] that are available. *)
Definition overridden (method : string) (mp : Multiprocessing) : bool :=
  bool_decide (method ∈ start_methods) && bool_decide (method ∈ all_start_methods mp).

(** What a process is asked to run. *)
Inductive Target : Type :=
| _process_wrapper
| _mock_process_wrapper
| other_target (name : string).

#[global] Instance Target_eq_dec : EqDecision Target.
Proof. solve_decision. Defined.

Section workers.

(** The five arguments of the wrappers are passed along as they are. *)
Context {ExecutorCreationFunc Queue LogInit Contexts : Type}.

Record WorkerArgs : Type := {
  executor_creation_func : ExecutorCreationFunc;
  input_queue : Queue;
  output_queue : Queue;
  log_context_initialization_func : LogInit;
  operation_contexts_dict : Contexts
}.

(** [promptflow.executor._line_execution_process_pool._process_wrapper] and
    the other targets, as they act on the child process. *)
Variable process_wrapper : WorkerArgs → TestEnv → TestEnv.
Variable run_other : string → WorkerArgs → TestEnv → TestEnv.

(** [MockSpawnProcess.__init__] and [MockForkServerProcess.__init__], which
    read alike: the target handed on to the base class. *)
Definition Mock_init_target (target : option Target) : option Target :=
  match target with
  | Some t => if decide (t = _process_wrapper) then Some _mock_process_wrapper else Some t
  | None => None
  end.

Definition mock_process_wrapper (args : WorkerArgs) (env : TestEnv) : TestEnv :=
  let env := (setup_recording env).1 in
  process_wrapper
    {| executor_creation_func := executor_creation_func args;
       input_queue := input_queue args;
       output_queue := output_queue args;
       log_context_initialization_func := log_context_initialization_func args;
       operation_contexts_dict := operation_contexts_dict args |} env.

(** What the child process does with the target of its [Process] object;
    without a target, [run] does nothing. *)
Definition run_target (target : option Target) (args : WorkerArgs) (env : TestEnv) : TestEnv :=
  match target with
  | None => env
  | Some _process_wrapper => process_wrapper args env
  | Some _mock_process_wrapper => mock_process_wrapper args env
  | Some (other_target name) => run_other name args env
  end.

End workers.

End conftest.

(** ** The call recorder *)

Module recording.

(** Modelled from the spec: the three ways an instrumented callable can be
    run: live, recording, replaying (section 4.4). *)
Inductive Mode : Type := Live | Recording | Replaying.

Section recorder.

Context {Call Key Output World : Type} `{Countable Key}.

(** The deterministic key of a call and the live callable are given. *)
Variable key_of : Call → Key.
Variable live : Call → World → Output * World.

(** Modelled from the spec: a CallRecord, "key: a deterministic hash over the
    call; value: the captured return value and ordering index". The
    implementation ([RecordStorage], [mock_tool]) is imported by the tests
    from [sdk_cli_test.recording_utilities], which is not at hand. *)
Record CallRecord : Type := {
  record_key : Key;
  record_index : nat;
  record_value : Output
}.

(** Modelled from the spec: the store is an append-only log of records, with
    a per-key occurrence counter for the current run. *)
Record RecordStorage : Type := {
  records : list CallRecord;
  occurrences : gmap Key nat
}.

(** Modelled from the spec: an empty store. *)
Definition empty_storage : RecordStorage := {| records := []; occurrences := ∅ |}.

(** Modelled from the spec: the occurrence counter of a key, zero before the
    first call with that key. *)
Definition next_index (k : Key) (st : RecordStorage) : nat :=
  default 0 (occurrences st !! k).

(** Modelled from the spec: the stored result for a key and occurrence
    index. The log is append-only and no record is changed in place, so a
    call recorded again in a later run is a further record behind the earlier
    one; the lookup answers with the latest record of the key and index, what
    was recorded last ("recording a call then replaying ... returns
    byte-identical output"). *)
Fixpoint lookup_record (k : Key) (n : nat) (rs : list CallRecord) : option Output :=
  match rs with
  | [] => None
  | r :: rs' =>
      match lookup_record k n rs' with
      | Some out => Some out
      | None =>
          if decide (record_key r = k ∧ record_index r = n) then Some (record_value r)
          else None
      end
  end.

(** Modelled from the spec: "Recording: every call to an instrumented
    callable is first executed live, then its (key, result) pair is appended
    to the store". *)
Definition record_call (c : Call) (st : RecordStorage) (w : World) : RecordStorage * World * Result Output :=
  let '(out, w') := live c w in
  let k := key_of c in
  let n := next_index k st in
  ({| records := records st ++ [{| record_key := k; record_index := n; record_value := out |}];
      occurrences := <[k := S n]> (occurrences st) |}, w', Ok out).

(** Modelled from the spec: "Replaying: every call is intercepted, its key
    computed, and the stored result returned without invoking the live
    callable; if no matching key exists, this is a hard error
    (RecordNotFoundError), not a silent fallback to live execution". *)
Definition replay_call (c : Call) (st : RecordStorage) (w : World) : RecordStorage * World * Result Output :=
  let k := key_of c in
  let n := next_index k st in
  match lookup_record k n (records st) with
  | Some out =>
      ({| records := records st; occurrences := <[k := S n]> (occurrences st) |}, w, Ok out)
  | None => (st, w, Raise (RecordNotFoundError "record not found"))
  end.

(** Modelled from the spec: what the instrumented callable does in each
    mode. *)
Definition call_tool (mode : Mode) (c : Call) (st : RecordStorage) (w : World) : RecordStorage * World * Result Output :=
  match mode with
  | Live => let '(out, w') := live c w in (st, w', Ok out)
  | Recording => record_call c st w
  | Replaying => replay_call c st w
  end.

(** Modelled from the spec: a run is a sequence of calls; it stops at the
    first call that raises. Returns what each call returned. *)
Fixpoint run_calls (mode : Mode) (cs : list Call) (st : RecordStorage) (w : World) : RecordStorage * World * Result (list Output) :=
  match cs with
  | [] => (st, w, Ok [])
  | c :: cs' =>
      match call_tool mode c st w with
      | (st', w', Ok out) =>
          match run_calls mode cs' st' w' with
          | (st'', w'', Ok outs) => (st'', w'', Ok (out :: outs))
          | (st'', w'', Raise e) => (st'', w'', Raise e)
          end
      | (st', w', Raise e) => (st', w', Raise e)
      end
  end.

(** Modelled from the spec: the store as loaded at the start of a run,
    recording or replaying: the log as it is on file, with every occurrence
    counter at zero ("within one run"). *)
Definition load_for_run (st : RecordStorage) : RecordStorage :=
  {| records := records st; occurrences := ∅ |}.

(** Modelled from the spec: the store as loaded for a replay run: the
    recorded log, read-only, with every occurrence counter back at zero. *)
Definition load_for_replay (st : RecordStorage) : RecordStorage :=
  load_for_run st.

(** Modelled from the spec: the store a replay reads when it repeats the
    calls recorded from [before] on: the log as the recording left it in
    [after], the occurrence counters as they were in [before]. *)
Definition rewind (before after : RecordStorage) : RecordStorage :=
  {| records := records after; occurrences := occurrences before |}.

(** Modelled from the spec: a key was recorded when some record of the log
    carries it. *)
Definition recorded (k : Key) (st : RecordStorage) : Prop :=
  ∃ r, r ∈ records st ∧ record_key r = k.

End recorder.

(** A callable for examples: the world counts the live invocations, and the
    answer is the argument followed by the count, so that repeated calls
    answer differently. *)
Definition counting_tool (c : string) (calls : nat) : string * nat :=
  (c +:+ "#" +:+ pretty calls, S calls).

(** The store after recording one call of [counting_tool] on ["a"]. *)
Definition recorded_once : @RecordStorage string string _ _ :=
  (record_call id counting_tool "a" empty_storage 0).1.1.

(** The store after a second run, started over [recorded_once] when the
    callable has already been invoked five times, has recorded the calls
    ["a"], ["b"], ["a"]. *)
Definition recorded_again : @RecordStorage string string _ _ :=
  (run_calls id counting_tool Recording ["a"; "b"; "a"] (load_for_run recorded_once) 5).1.1.

End recording.

(** ** The experiment controller *)

Module experiment.

(** Modelled from the spec: the statuses of an Experiment (section 3). The
    controller and the scheduler are driven by the end-to-end tests of
    [test_experiment.py]; their implementation is not at hand. *)
Inductive ExperimentStatus : Type :=
| NotStarted | Queuing | InProgress | Completed | Canceled | Failed | Terminated.

(** Modelled from the spec: the statuses of a NodeRun (section 3). *)
Inductive RunStatus : Type :=
| RunQueued | RunRunning | RunCompleted | RunFailed | RunCanceled.

#[global] Instance ExperimentStatus_eq_dec : EqDecision ExperimentStatus.
Proof. solve_decision. Defined.
#[global] Instance RunStatus_eq_dec : EqDecision RunStatus.
Proof. solve_decision. Defined.

(** Modelled from the spec: a status prints as its name, as in the message
    "Experiment X is <status>". *)
Definition status_str (s : ExperimentStatus) : string :=
  match s with
  | NotStarted => "NotStarted"
  | Queuing => "Queuing"
  | InProgress => "InProgress"
  | Completed => "Completed"
  | Canceled => "Canceled"
  | Failed => "Failed"
  | Terminated => "Terminated"
  end.

(** Modelled from the spec: a run record of the [node_runs] history; the
    tests read its ["name"] and ["status"]. *)
Record NodeRun : Type := {
  run_name : string;
  run_status : RunStatus
}.

#[global] Instance NodeRun_eq_dec : EqDecision NodeRun.
Proof. solve_decision. Defined.

(** Modelled from the spec: an Experiment: its name, the names of its nodes,
    its status and the [node_runs] history, "mapping from node name to an
    ordered sequence of run records". [dispatched] lists the nodes the
    scheduler has dispatched in the current run. *)
Record Experiment : Type := {
  exp_name : string;
  nodes : list string;
  status : ExperimentStatus;
  node_runs : gmap string (list NodeRun);
  dispatched : list string
}.

(** Modelled from the spec: an experiment as created from a template, before
    any [start]. *)
Definition create (name : string) (node_names : list string) : Experiment :=
  {| exp_name := name; nodes := node_names; status := NotStarted;
     node_runs := ∅; dispatched := [] |}.

(** Modelled from the spec: the error kinds of the taxonomy (section 7). *)
Inductive ErrorKind : Type :=
| ValidationError | InvalidStateError | WorkerTimeout | WorkerCrash
| RecordNotFound | LockContention | OtherError.

(** Modelled from the spec: "InvalidStateError (operation not legal in current
    experiment status, e.g. starting an already-running experiment)"; the
    test catches it as [RunOperationError]. *)
Definition error_kind (e : PyError) : ErrorKind :=
  match e with
  | RunOperationError _ => InvalidStateError
  | RecordNotFoundError _ => RecordNotFound
  | KeyError _ | ValueError _ | RecursionError => OtherError
  end.

(** Modelled from the spec: an experiment is active while [Queuing] or
    [InProgress]. *)
Definition is_active (s : ExperimentStatus) : bool :=
  match s with
  | Queuing | InProgress => true
  | _ => false
  end.

(** Modelled from the spec: the terminal statuses of an experiment. *)
Definition is_terminal (s : ExperimentStatus) : bool :=
  match s with
  | Completed | Canceled | Failed | Terminated => true
  | _ => false
  end.

(** Modelled from the spec: a node run is terminal once "the underlying
    flow-run or command-run finishes or is canceled". *)
Definition run_terminal (s : RunStatus) : bool :=
  match s with
  | RunCompleted | RunFailed | RunCanceled => true
  | RunQueued | RunRunning => false
  end.

(** Modelled from the spec: the history of a node, empty when the node has
    never been dispatched. *)
Definition runs_of (node : string) (e : Experiment) : list NodeRun :=
  default [] (node_runs e !! node).

(** Modelled from the spec: the controller's write of a new status; nothing
    else of the experiment changes. *)
Definition set_status (s : ExperimentStatus) (e : Experiment) : Experiment :=
  {| exp_name := exp_name e; nodes := nodes e; status := s;
     node_runs := node_runs e; dispatched := dispatched e |}.

(** Modelled from the spec: a node run changes status under its name. *)
Definition set_run_status (s : RunStatus) (r : NodeRun) : NodeRun :=
  {| run_name := run_name r; run_status := s |}.

(** Modelled from the spec: the message of the test,
    [f"Experiment {exp.name} is {exp.status}"]. *)
Definition invalid_state_message (e : Experiment) : string :=
  "Experiment " +:+ exp_name e +:+ " is " +:+ status_str (status e).

(** Modelled from the spec: "start(name): fails with an InvalidStateError kind
    if the experiment is already Queuing/InProgress; otherwise transitions to
    Queuing, hands off to the DAG Scheduler asynchronously, and returns
    immediately with the updated status snapshot". The first component is
    the persisted experiment after the call. *)
Definition start (e : Experiment) : Experiment * Result Experiment :=
  if is_active (status e) then (e, Raise (RunOperationError (invalid_state_message e)))
  else
    let e' :=
      {| exp_name := exp_name e; nodes := nodes e; status := Queuing;
         node_runs := node_runs e; dispatched := [] |} in
    (e', Ok e').

(** Modelled from the spec: cancellation "transitions in-flight nodes to
    Canceled and lets already-completed nodes retain their results". *)
Definition cancel_run (r : NodeRun) : NodeRun :=
  if run_terminal (run_status r) then r else set_run_status RunCanceled r.

(** Modelled from the spec: "stop from Queuing/InProgress forces Terminated
    after canceling the active DAG Scheduler run"; "stop(name) is a no-op
    (but not an error) if the experiment is already terminal". The spec is
    silent on [NotStarted], where there is nothing to cancel. *)
Definition stop (e : Experiment) : Experiment * Result Experiment :=
  if is_active (status e) then
    let e' :=
      {| exp_name := exp_name e; nodes := nodes e; status := Terminated;
         node_runs := fmap (M := list) cancel_run <$> node_runs e;
         dispatched := dispatched e |} in
    (e', Ok e')
  else (e, Ok e).

(** Modelled from the spec: only the latest run of a node is in flight;
    applies [f] to the latest run of a history. *)
Definition update_latest (f : NodeRun → NodeRun) (runs : list NodeRun) : list NodeRun :=
  alter f (pred (length runs)) runs.

(** Modelled from the spec: the status of the latest run of a node, if it
    has one. *)
Definition latest_status (node : string) (e : Experiment) : option RunStatus :=
  run_status <$> last (runs_of node e).

(** Modelled from the spec: what happens to an experiment: the two controller
    calls, and the steps of the DAG scheduler. *)
Inductive Event : Type :=
| EvStart
| EvStop
| EvSchedulerBegins
| EvDispatch (node run : string)
| EvRunStarts (node : string)
| EvRunEnds (node : string) (outcome : RunStatus)
| EvAllNodesTerminal
| EvTerminate.

#[global] Instance Event_eq_dec : EqDecision Event.
Proof. solve_decision. Defined.

(** Modelled from the spec: all nodes are terminal when every node has been
    dispatched in this run and its latest run is terminal. *)
Definition all_nodes_terminal (e : Experiment) : bool :=
  forallb (λ node,
    bool_decide (node ∈ dispatched e) &&
    match latest_status node e with
    | Some s => run_terminal s
    | None => false
    end) (nodes e).

(** Modelled from the spec: the run ends [Failed] when the latest run of
    some node failed, [Completed] otherwise. *)
Definition any_node_failed (e : Experiment) : bool :=
  existsb (λ node, bool_decide (latest_status node e = Some RunFailed)) (nodes e).

(** Modelled from the spec: one step of the state machine of section 4.2,

    [NotStarted --start--> Queuing --scheduler begins--> InProgress
       --all nodes terminal--> {Completed | Failed} --> Terminated],

    with the node-level steps of section 4.1: dispatching a node appends a
    new NodeRun to its history, a run goes from Queued to Running and ends
    terminal. [None]: the event cannot happen in this state. *)
Definition step (e : Experiment) (ev : Event) : option Experiment :=
  match ev with
  | EvStart =>
      match start e with
      | (e', Ok _) => Some e'
      | (_, Raise _) => None
      end
  | EvStop => Some (fst (stop e))
  | EvSchedulerBegins =>
      if decide (status e = Queuing) then Some (set_status InProgress e) else None
  | EvDispatch node run =>
      if decide (status e = InProgress) then
        if bool_decide (node ∈ nodes e) && negb (bool_decide (node ∈ dispatched e)) then
          Some {| exp_name := exp_name e; nodes := nodes e; status := status e;
                  node_runs :=
                    <[node := runs_of node e ++ [{| run_name := run; run_status := RunQueued |}]]>
                      (node_runs e);
                  dispatched := dispatched e ++ [node] |}
        else None
      else None
  | EvRunStarts node =>
      if decide (status e = InProgress) then
        if bool_decide (node ∈ dispatched e) && bool_decide (latest_status node e = Some RunQueued) then
          Some {| exp_name := exp_name e; nodes := nodes e; status := status e;
                  node_runs := alter (update_latest (set_run_status RunRunning)) node (node_runs e);
                  dispatched := dispatched e |}
        else None
      else None
  | EvRunEnds node outcome =>
      if decide (status e = InProgress) then
        if bool_decide (node ∈ dispatched e) && run_terminal outcome &&
           match latest_status node e with
           | Some s => negb (run_terminal s)
           | None => false
           end then
          Some {| exp_name := exp_name e; nodes := nodes e; status := status e;
                  node_runs := alter (update_latest (set_run_status outcome)) node (node_runs e);
                  dispatched := dispatched e |}
        else None
      else None
  | EvAllNodesTerminal =>
      if decide (status e = InProgress) then
        if all_nodes_terminal e then
          Some (set_status (if any_node_failed e then Failed else Completed) e)
        else None
      else None
  | EvTerminate =>
      if decide (status e = Completed ∨ status e = Failed) then Some (set_status Terminated e)
      else None
  end.

(** Modelled from the spec: a sequence of events, oldest first; [None] when
    one of them cannot happen. *)
Fixpoint run (e : Experiment) (evs : list Event) : option Experiment :=
  match evs with
  | [] => Some e
  | ev :: evs' =>
      match step e ev with
      | Some e' => run e' evs'
      | None => None
      end
  end.

(** Modelled from the spec: the statuses an experiment goes through, with
    repetitions of the current status left out. *)
Fixpoint status_history (e : Experiment) (evs : list Event) : list ExperimentStatus :=
  match evs with
  | [] => [status e]
  | ev :: evs' =>
      match step e ev with
      | Some e' =>
          if decide (status e' = status e) then status_history e' evs'
          else status e :: status_history e' evs'
      | None => [status e]
      end
  end.

(** Modelled from the spec: the rest of the chain of section 4.2 from a status on, for a run that ends [outcome]. *)
Definition rest_of_chain (s outcome : ExperimentStatus) : list ExperimentStatus :=
  match s with
  | NotStarted => [NotStarted; Queuing; InProgress; outcome; Terminated]
  | Queuing => [Queuing; InProgress; outcome; Terminated]
  | InProgress => [InProgress; outcome; Terminated]
  | Completed | Failed | Canceled => [s; Terminated]
  | Terminated => [Terminated]
  end.

(** Modelled from the spec: how often a node was dispatched. *)
(** Modelled from the spec: the event dispatches the node. *)
Definition is_dispatch_of (node : string) (ev : Event) : bool :=
  match ev with
  | EvDispatch node' _ => bool_decide (node' = node)
  | _ => false
  end.

Definition dispatch_count (node : string) (evs : list Event) : nat :=
  length (filter (λ ev, is_dispatch_of node ev = true) evs).

(** Modelled from the spec: the runs of a history have all ended. *)
Definition settled (runs : list NodeRun) : Prop :=
  Forall (λ r, run_terminal (run_status r) = true) runs.

(** Modelled from the spec: what holds of every experiment the controller
    and the scheduler can produce: only nodes of the experiment are dispatched, at most the latest
    run of a node is still in flight, and it is so only while the experiment
    is active and the node has been dispatched in the current run. *)
Record consistent (e : Experiment) : Prop := {
  dispatched_are_nodes : ∀ node, node ∈ dispatched e → node ∈ nodes e;
  earlier_runs_settled : ∀ node i r,
    runs_of node e !! i = Some r → S i < length (runs_of node e) →
    run_terminal (run_status r) = true;
  idle_runs_settled : ∀ node,
    is_active (status e) = false ∨ node ∉ dispatched e → settled (runs_of node e)
}.

(** The experiment of the tests, with its two nodes, and one complete run of
    it. *)
Definition basic_experiment : Experiment := create "basic-exp" ["main"; "eval"].

Definition scheduler_run (tag : string) : list Event :=
  [ EvSchedulerBegins;
    EvDispatch "main" ("main_" +:+ tag); EvRunStarts "main"; EvRunEnds "main" RunCompleted;
    EvDispatch "eval" ("eval_" +:+ tag); EvRunStarts "eval"; EvRunEnds "eval" RunCompleted;
    EvAllNodesTerminal; EvTerminate ].

(** The experiment after its first complete run, and after a second one. *)
Definition after_first_run : Experiment :=
  default basic_experiment (run basic_experiment (EvStart :: scheduler_run "1")).

Definition after_second_run : Experiment :=
  default basic_experiment (run after_first_run (EvStart :: scheduler_run "2")).

(** The experiment while its first node is running. *)
Definition running_experiment : Experiment :=
  {| exp_name := "basic-exp"; nodes := ["main"; "eval"]; status := InProgress;
     node_runs := {[ "main" := [ {| run_name := "main_1"; run_status := RunRunning |} ] ]};
     dispatched := ["main"] |}.

(** [TestExperiment.wait_for_experiment_terminated]: polls while the status
    is [IN_PROGRESS] or [QUEUING]; [polls] are the statuses the successive
    calls to [get] return. [None]: still waiting when they are used up. *)
Fixpoint wait_for_experiment_terminated (status : ExperimentStatus) (polls : list ExperimentStatus) : option ExperimentStatus :=
  if bool_decide (status ∈ [InProgress; Queuing]) then
    match polls with
    | [] => None
    | s :: rest => wait_for_experiment_terminated s rest
    end
  else Some status.

End experiment.

(** ** tracer_manager.py: the exporters and the store as a whole *)

Module exporters.
Import tracer_manager.

(** The calls a client makes on the trace store. *)
Inductive StoreCall : Type :=
| CallAddSpans (spans : list ReadableSpan)
| CallGet (run_id : string)
| CallPop (run_id : string).

(** The store after a call; [get_spans_from_run_id] only reads. *)
Definition store_after (self : MemoryTraceStore) (call : StoreCall) : MemoryTraceStore :=
  match call with
  | CallAddSpans spans => add_spans spans self
  | CallGet _ => self
  | CallPop run_id => (pop_spans_from_run_id run_id self).1
  end.

Definition store_after_all (calls : list StoreCall) (self : MemoryTraceStore) : MemoryTraceStore :=
  foldl store_after self calls.

(** Exceptions beyond those of [PyError]. *)
Inductive Outcome (A : Type) : Type :=
| Returned (a : A)
| AttributeError (msg : string).

Arguments Returned {A} a.
Arguments AttributeError {A} msg.

Inductive SpanExportResult : Type := SUCCESS | FAILURE.

(** What the exporters of the module act on: standard output and the module
    global [trace_store]. *)
Record Globals : Type := {
  stdout : list string;
  trace_store : MemoryTraceStore
}.

Section exporters.

(** [str] of a sequence of spans, [span.to_json()] and [json.loads] are the
    libraries'. *)
Context {Json : Type}.
Variable str_spans : list ReadableSpan → string.
Variable to_json : ReadableSpan → string.
Variable json_loads : string → Json.

(** *** MemoryExporter *)

(** An instance is its attribute dictionary: neither the class nor its base
    [SpanExporter] defines [__init__], so a new instance has no attributes. *)
Record MemoryExporter : Type := { instance_dict : gmap string (list ReadableSpan) }.

Definition MemoryExporter_new : MemoryExporter := {| instance_dict := ∅ |}.

(** [export]: returns the instance as the call leaves it, the globals and the
    result. *)
Definition MemoryExporter_export (spans : list ReadableSpan) (self : MemoryExporter) (g : Globals)
    : MemoryExporter * Globals * SpanExportResult :=
  (self,
   {| stdout := stdout g ++ ["exporting " +:+ str_spans spans];
      trace_store := add_spans spans (trace_store g) |},
   SUCCESS).

Definition MemoryExporter_force_flush (timeout_millis : Z) (self : MemoryExporter) : MemoryExporter * bool :=
  (self, true).

(** [spans]: reads the attribute [_spans] of the instance. *)
Definition MemoryExporter_spans (self : MemoryExporter) : Outcome (list Json) :=
  match instance_dict self !! "_spans" with
  | None => AttributeError "'MemoryExporter' object has no attribute '_spans'"
  | Some spans => Returned ((λ span, json_loads (to_json span)) <$> spans)
  end.

(** The calls on a [MemoryExporter] that change state. *)
Inductive MemoryExporterCall : Type :=
| CallExport (spans : list ReadableSpan)
| CallForceFlush (timeout_millis : Z).

Definition memory_exporter_after (state : MemoryExporter * Globals) (call : MemoryExporterCall)
    : MemoryExporter * Globals :=
  match call with
  | CallExport spans => (MemoryExporter_export spans state.1 state.2).1
  | CallForceFlush t => ((MemoryExporter_force_flush t state.1).1, state.2)
  end.

(** The spans handed to [export] by a sequence of calls, in order. *)
Definition exported (calls : list MemoryExporterCall) : list ReadableSpan :=
  calls ≫= (λ call, match call with CallExport spans => spans | CallForceFlush _ => [] end).

(** *** FileExporter *)

(** A text file opened for writing: what has reached the file, what is still
    in the buffer of the file object, and whether the object is closed. *)
Record TextFile : Type := {
  on_disk : string;
  buffered : string;
  closed : bool
}.

(** [open(file_name, "a")] on a file that holds [existing] (the empty string
    when the file is new): append mode keeps it. *)
Definition open_append (existing : string) : TextFile :=
  {| on_disk := existing; buffered := ""; closed := false |}.

Definition closed_file_error : PyError := ValueError "I/O operation on closed file.".

Definition file_write (text : string) (f : TextFile) : TextFile * Result nat :=
  if closed f then (f, Raise closed_file_error)
  else ({| on_disk := on_disk f; buffered := buffered f +:+ text; closed := false |},
        Ok (String.length text)).

Definition file_flush (f : TextFile) : TextFile * Result unit :=
  if closed f then (f, Raise closed_file_error)
  else ({| on_disk := on_disk f +:+ buffered f; buffered := ""; closed := false |}, Ok tt).

(** [close] flushes an open file and is a no-op on a closed one. *)
Definition file_close (f : TextFile) : TextFile :=
  if closed f then f
  else {| on_disk := on_disk f +:+ buffered f; buffered := ""; closed := true |}.

Record FileExporter : Type := {
  file_name : string;
  file : TextFile
}.

(** [__init__], given what the file holds. *)
Definition FileExporter_init (file_name : string) (existing : string) : FileExporter :=
  {| file_name := file_name; file := open_append existing |}.

(** The loop [for span_json in span_data: self.file.write(span_json + "\n")]. *)
Fixpoint write_lines (span_data : list string) (f : TextFile) : TextFile * Result unit :=
  match span_data with
  | [] => (f, Ok tt)
  | span_json :: rest =>
      match file_write (span_json +:+ String (Ascii.ascii_of_nat 10) "") f with
      | (f', Ok _) => write_lines rest f'
      | (f', Raise e) => (f', Raise e)
      end
  end.

Definition FileExporter_export (spans : list ReadableSpan) (self : FileExporter)
    : FileExporter * Result SpanExportResult :=
  let span_data := to_json <$> spans in
  match write_lines span_data (file self) with
  | (f, Ok _) =>
      match file_flush f with
      | (f', Ok _) => ({| file_name := file_name self; file := f' |}, Ok SUCCESS)
      | (f', Raise e) => ({| file_name := file_name self; file := f' |}, Raise e)
      end
  | (f, Raise e) => ({| file_name := file_name self; file := f |}, Raise e)
  end.

Definition FileExporter_shutdown (self : FileExporter) : FileExporter :=
  {| file_name := file_name self; file := file_close (file self) |}.

(** The text [export] adds for a batch. *)
Definition json_lines (spans : list ReadableSpan) : string :=
  foldr (λ span text, to_json span +:+ String (Ascii.ascii_of_nat 10) "" +:+ text) "" spans.

End exporters.

End exporters.

(** ** tests/sdk_cli_test/e2etests/test_experiment.py: the assertions *)

Module test_experiment.
Import experiment.

(** Truth value of a Python list: empty lists are false. *)
Definition list_truthy {A : Type} (l : list A) : bool :=
  match l with
  | [] => false
  | _ :: _ => true
  end.

(** [all([run["status"] == RunStatus.COMPLETED] for run in runs)], the
    assertion of the restart test: each element of the generator is a list of
    one boolean. *)
Definition restart_assertion (runs : list NodeRun) : bool :=
  forallb (λ run, list_truthy [bool_decide (run_status run = RunCompleted)]) runs.

(** The loop [for name, runs in exp.node_runs.items(): assert ...] of
    [test_experiment_start]. *)
Definition restart_assertions (node_runs : gmap string (list NodeRun)) : bool :=
  forallb (λ item, restart_assertion item.2) (map_to_list node_runs).

(** How an assertion block ends. *)
Inductive TestOutcome : Type :=
| Passed
| AssertionFailed
| IndexError.

(** [assert val[0]["status"] == RunStatus.COMPLETED] for one node. *)
Definition first_run_assertion (val : list NodeRun) : TestOutcome :=
  match val with
  | [] => IndexError
  | run :: _ => if bool_decide (run_status run = RunCompleted) then Passed else AssertionFailed
  end.

Fixpoint first_failure (outcomes : list TestOutcome) : TestOutcome :=
  match outcomes with
  | [] => Passed
  | Passed :: rest => first_failure rest
  | failure :: _ => failure
  end.

(** The assertions of [test_experiment_with_script_start] on the experiment
    the wait returned; [items] is [exp.node_runs.items()]. *)
Definition script_start_assertions (status : ExperimentStatus) (items : list (string * list NodeRun)) : TestOutcome :=
  if negb (bool_decide (status = Terminated)) then AssertionFailed
  else if negb (bool_decide (length items = 4)) then AssertionFailed
  else first_failure ((λ item, first_run_assertion item.2) <$> items).

(** [wait_for_experiment_terminated] with the number of calls to [get] (and
    of [sleep(10)]) it makes. *)
Fixpoint wait_counting (status : ExperimentStatus) (polls : list ExperimentStatus) : option (nat * ExperimentStatus) :=
  if bool_decide (status ∈ [InProgress; Queuing]) then
    match polls with
    | [] => None
    | s :: rest =>
        match wait_counting s rest with
        | Some (n, final) => Some (S n, final)
        | None => None
        end
    end
  else Some (0, status).

End test_experiment.

(** * Properties *)

(** ** Strings and lists *)

Lemma list_remove_middle {A : Type} `{EqDecision A} (x : A) (front back : list A) :
  x ∉ front → list_remove x (front ++ x :: back) = Some (front ++ back).
Proof.
  induction front as [|y front IH]; intros Hnotin; simpl.
  - by rewrite decide_True.
  - apply not_elem_of_cons in Hnotin as [Hne Hnotin].
    rewrite decide_False by congruence.
    by rewrite IH.
Qed.

Lemma str_prefix_app (p s : string) : str_prefix p (p +:+ s) = true.
Proof.
  induction p as [|a p IH]; simpl; [done|].
  by rewrite bool_decide_eq_true_2, IH.
Qed.

Lemma str_contains_app_r (needle front back : string) :
  str_contains needle back = true → str_contains needle (front +:+ back) = true.
Proof.
  intros Hback. induction front as [|a front IH]; simpl; [done|].
  rewrite IH. apply orb_true_r.
Qed.

Lemma str_contains_here (needle back : string) :
  str_contains needle (needle +:+ back) = true.
Proof.
  destruct needle as [|a needle].
  - destruct back; reflexivity.
  - change (str_contains (String a needle) (String a needle +:+ back))
      with (str_prefix (String a needle) (String a needle +:+ back)
            || str_contains (String a needle) (needle +:+ back)).
    by rewrite str_prefix_app.
Qed.

Lemma str_contains_middle (needle front back : string) :
  str_contains needle (front +:+ needle +:+ back) = true.
Proof. apply str_contains_app_r, str_contains_here. Qed.

(** ** MemoryTraceStore *)

Module trace_store_facts.
Import tracer_manager.

Lemma attr_eq_str_spec (v : AttributeValue) (run_id : string) :
  attr_eq_str v run_id = true ↔ v = AttrStr run_id.
Proof.
  destruct v as [s| |]; simpl; [|split; discriminate..].
  rewrite bool_decide_eq_true. split; congruence.
Qed.

Lemma ingest_from (batches : list (list ReadableSpan)) (store : MemoryTraceStore) :
  _spans (foldl (λ store batch, add_spans batch store) store batches)
  = _spans store ++ concat batches.
Proof.
  revert store. induction batches as [|b batches IH]; intros store; simpl.
  - by rewrite app_nil_r.
  - rewrite IH. simpl. by rewrite app_assoc.
Qed.

Lemma ingest_spans (batches : list (list ReadableSpan)) :
  _spans (ingest batches) = concat batches.
Proof. unfold ingest. by rewrite ingest_from. Qed.

Lemma select_run_id_filter (run_id : string) (spans : list ReadableSpan) :
  Forall has_root_run_id spans →
  select_run_id run_id spans = Ok (filter (of_run run_id) spans).
Proof.
  induction 1 as [|span spans [v Hv] _ IH]; simpl; [done|].
  rewrite Hv, IH. simpl. f_equal.
  destruct (attr_eq_str v run_id) eqn:Heq.
  - apply attr_eq_str_spec in Heq as ->.
    by rewrite filter_cons_True.
  - rewrite filter_cons_False; [done|].
    unfold of_run. rewrite Hv. intros [= ->].
    by rewrite (proj2 (attr_eq_str_spec _ _)) in Heq.
Qed.

Lemma select_run_id_missing (run_id : string) (spans : list ReadableSpan) :
  Exists (λ span, attributes span !! "root_run_id" = None) spans →
  select_run_id run_id spans = Raise (KeyError "root_run_id").
Proof.
  induction 1 as [span spans Hnone|span spans _ IH]; simpl.
  - by rewrite Hnone.
  - rewrite IH. by destruct (attributes span !! "root_run_id").
Qed.

(** Removing the selected spans one by one leaves the others, in order.
    [kept] are spans already passed over. *)
Lemma remove_each_selected (run_id : string) (spans kept : list ReadableSpan) :
  Forall (λ span, ¬ of_run run_id span) kept →
  remove_each (filter (of_run run_id) spans) {| _spans := kept ++ spans |}
  = ({| _spans := kept ++ filter (λ span, ¬ of_run run_id span) spans |}, Ok tt).
Proof.
  revert kept. induction spans as [|span spans IH]; intros kept Hkept.
  - done.
  - destruct (decide (of_run run_id span)) as [Hin|Hout].
    + rewrite filter_cons_True by done.
      rewrite (filter_cons_False (λ span, ¬ of_run run_id span)) by tauto.
      simpl. rewrite list_remove_middle; [by apply IH|].
      intros Helem. by eapply Forall_forall in Hkept.
    + rewrite filter_cons_False by done.
      rewrite (filter_cons_True (λ span, ¬ of_run run_id span)) by done.
      rewrite (cons_middle span kept spans), app_assoc.
      rewrite (IH (kept ++ [span])).
      * by rewrite <- app_assoc.
      * apply Forall_app. split; [done|]. by constructor.
Qed.

Lemma filter_of_run_rest (run_id : string) (spans : list ReadableSpan) :
  filter (of_run run_id) (filter (λ span, ¬ of_run run_id span) spans) = [].
Proof.
  induction spans as [|span spans IH]; [done|].
  destruct (decide (of_run run_id span)).
  - rewrite (filter_cons_False (λ span, ¬ of_run run_id span)) by tauto. done.
  - rewrite (filter_cons_True (λ span, ¬ of_run run_id span)) by done.
    by rewrite filter_cons_False.
Qed.

Lemma pop_spans_ok (run_id : string) (store : MemoryTraceStore) :
  Forall has_root_run_id (_spans store) →
  pop_spans_from_run_id run_id store
  = ({| _spans := filter (λ span, ¬ of_run run_id span) (_spans store) |},
     Ok (filter (of_run run_id) (_spans store))).
Proof.
  intros Hall. unfold pop_spans_from_run_id, get_spans_from_run_id.
  rewrite select_run_id_filter by done.
  destruct store as [spans]; simpl in *.
  pose proof (remove_each_selected run_id spans [] (Forall_nil_2 _)) as Hrem.
  simpl in Hrem. by rewrite Hrem.
Qed.

(** The property does not hold for every sequence of ingested spans, nor is
    the pop atomic. [add_spans] takes any span; once a span without
    [root_run_id] is in the store, the subscript of the comprehension raises
    [KeyError], so the pop returns nothing, for every run id, and removes
    nothing: here the store holds the root and the child of ["run-1"] and one
    span without the attribute. And with the spans of the example all
    carrying the attribute, a second pop of the same run running between the
    two statements of the first makes the first raise [ValueError] from
    [list.remove], instead of returning the spans it had read. *)
Lemma pop_fails_on_bare_span_or_interleaving :
  pop_spans_from_run_id "run-1" (ingest [[root_span; bare_span]; [child_span]])
    = (ingest [[root_span; bare_span]; [child_span]], Raise (KeyError "root_run_id"))
  ∧ (¬ ∃ store',
       pop_spans_from_run_id "run-1" (ingest [[root_span; bare_span]; [child_span]])
       = (store', Ok (filter (of_run "run-1") (concat [[root_span; bare_span]; [child_span]]))))
  ∧ pop_spans_interleaved (λ store, (pop_spans_from_run_id "run-1" store).1) "run-1"
      (ingest [[root_span; other_span]; [child_span]])
    = ({| _spans := [other_span] |}, Raise (ValueError "list.remove(x): x not in list")).
Proof.
  split; [|split].
  - vm_compute. reflexivity.
  - intros [store' Hpop]. vm_compute in Hpop. discriminate Hpop.
  - vm_compute. reflexivity.
Qed.

(** With no other call in between, the interleaved form is the method. *)
Lemma pop_spans_uninterrupted (run_id : string) (store : MemoryTraceStore) :
  pop_spans_interleaved id run_id store = pop_spans_from_run_id run_id store.
Proof. reflexivity. Qed.

(** C1. Whatever batches of spans were ingested through [add_spans], provided
    each ingested span carries [root_run_id], a call of
    [pop_spans_from_run_id] that no other call on the store interrupts
    returns exactly the ingested spans whose [root_run_id] is the given run
    id, in ingestion order, leaves exactly the other spans in the store, and
    a [get_spans_from_run_id] for the same run id right after returns the
    empty list. *)
Theorem pop_returns_the_run_and_empties_it (batches : list (list ReadableSpan)) (run_id : string) :
  Forall has_root_run_id (concat batches) →
  ∃ store',
    pop_spans_from_run_id run_id (ingest batches)
      = (store', Ok (filter (of_run run_id) (concat batches)))
    ∧ _spans store' = filter (λ span, ¬ of_run run_id span) (concat batches)
    ∧ get_spans_from_run_id run_id store' = Ok [].
Proof.
  intros Hall. eexists. split; [|split].
  - rewrite pop_spans_ok; rewrite ingest_spans; done.
  - done.
  - unfold get_spans_from_run_id. simpl.
    rewrite select_run_id_filter.
    + by rewrite filter_of_run_rest.
    + apply Forall_forall. intros span [_ Hin]%list_elem_of_filter.
      by eapply Forall_forall in Hall.
Qed.

(** C9. When every span of the store carries [root_run_id], both accessors
    return normally for every run id; when some span of the store lacks it,
    both raise [KeyError] for every run id, and the store is left as it
    was. *)
Theorem accessors_need_root_run_id (store : MemoryTraceStore) (run_id : string) :
  (Forall has_root_run_id (_spans store) →
     (∃ spans, get_spans_from_run_id run_id store = Ok spans)
     ∧ (∃ store' spans, pop_spans_from_run_id run_id store = (store', Ok spans)))
  ∧ (Exists (λ span, attributes span !! "root_run_id" = None) (_spans store) →
     get_spans_from_run_id run_id store = Raise (KeyError "root_run_id")
     ∧ pop_spans_from_run_id run_id store = (store, Raise (KeyError "root_run_id"))).
Proof.
  split.
  - intros Hall. split.
    + eexists. by apply select_run_id_filter.
    + do 2 eexists. by apply pop_spans_ok.
  - intros Hmiss.
    assert (get_spans_from_run_id run_id store = Raise (KeyError "root_run_id")) as Hget
      by by apply select_run_id_missing.
    split; [done|]. unfold pop_spans_from_run_id. by rewrite Hget.
Qed.

Example pop_example :
  pop_spans_from_run_id "run-1" (ingest [[root_span; other_span]; [child_span]])
  = ({| _spans := [other_span] |}, Ok [root_span; child_span]).
Proof. vm_compute. reflexivity. Qed.

Lemma example_spans_have_root_run_id :
  Forall has_root_run_id [root_span; other_span; child_span].
Proof. repeat constructor; eexists; vm_compute; reflexivity. Defined.

Lemma pop_returns_the_run_and_empties_it_witness :
  Forall has_root_run_id (concat [[root_span; other_span]; [child_span]])
  ∧ ∃ store',
      pop_spans_from_run_id "run-1" (ingest [[root_span; other_span]; [child_span]])
        = (store', Ok (filter (of_run "run-1") (concat [[root_span; other_span]; [child_span]])))
      ∧ _spans store'
        = filter (λ span, ¬ of_run "run-1" span) (concat [[root_span; other_span]; [child_span]])
      ∧ get_spans_from_run_id "run-1" store' = Ok [].
Proof.
  split.
  - exact example_spans_have_root_run_id.
  - apply (pop_returns_the_run_and_empties_it [[root_span; other_span]; [child_span]] "run-1").
    exact example_spans_have_root_run_id.
Defined.

Lemma accessors_need_root_run_id_witness :
  (∃ spans, get_spans_from_run_id "run-1" {| _spans := [root_span; other_span; child_span] |} = Ok spans)
  ∧ get_spans_from_run_id "run-1" {| _spans := [root_span; bare_span] |}
    = Raise (KeyError "root_run_id")
  ∧ pop_spans_from_run_id "run-1" {| _spans := [root_span; bare_span] |}
    = ({| _spans := [root_span; bare_span] |}, Raise (KeyError "root_run_id")).
Proof.
  split.
  - apply (accessors_need_root_run_id {| _spans := [root_span; other_span; child_span] |} "run-1").
    exact example_spans_have_root_run_id.
  - apply (accessors_need_root_run_id {| _spans := [root_span; bare_span] |} "run-1").
    apply Exists_cons_tl, Exists_cons_hd. vm_compute. reflexivity.
Defined.

End trace_store_facts.

(** ** get_tracer *)

Module tracer_facts.
Import tracer_manager.

Lemma get_tracer_cached (name : string) (st : TracerState) (t : Tracer) :
  _tracer_instance st = Some t → get_tracer name st = (st, t).
Proof. intros Hset. unfold get_tracer. by rewrite Hset. Qed.

Lemma get_tracer_sets_instance (name : string) (st : TracerState) :
  _tracer_instance (get_tracer name st).1 = Some (get_tracer name st).2.
Proof. unfold get_tracer. by destruct (_tracer_instance st) eqn:Hinst. Qed.

Lemma get_tracer_calls_cached (names : list string) (st : TracerState) (t : Tracer) :
  _tracer_instance st = Some t →
  get_tracer_calls names st = (st, replicate (length names) t).
Proof.
  intros Hset. induction names as [|name names IH]; simpl; [done|].
  by rewrite (get_tracer_cached name st t Hset), IH.
Qed.

(** C8. [get_tracer] is idempotent. From any state, after a call
    [get_tracer name] every later call, with the same name or another,
    returns the tracer that call returned and leaves the state untouched, so
    nothing is constructed or registered again. On the first call of the
    process, exactly one provider is constructed and registered, with its
    three span processors, and the tracer bears the name of that call. *)
Theorem get_tracer_idempotent (name : string) (later : list string) (st : TracerState) :
  let st1 := (get_tracer name st).1 in
  let t := (get_tracer name st).2 in
  get_tracer name st1 = (st1, t)
  ∧ get_tracer_calls later st1 = (st1, replicate (length later) t)
  ∧ get_tracer_calls (name :: later) initial_tracer_state
    = ({| _tracer_instance := Some {| instrumenting_module_name := name;
                                      tracer_provider :=
                                        {| provider_obj := 0;
                                           resource := [(SERVICE_NAME, "promptflow")];
                                           span_processors :=
                                             [BatchSpanProcessor MdcExporter;
                                              SimpleSpanProcessor TreeConsoleExporter;
                                              SimpleSpanProcessor memory_exporter] |} |};
          constructed := [ {| provider_obj := 0;
                              resource := [(SERVICE_NAME, "promptflow")];
                              span_processors :=
                                [BatchSpanProcessor MdcExporter;
                                 SimpleSpanProcessor TreeConsoleExporter;
                                 SimpleSpanProcessor memory_exporter] |} ];
          registered := [ {| provider_obj := 0;
                             resource := [(SERVICE_NAME, "promptflow")];
                             span_processors :=
                               [BatchSpanProcessor MdcExporter;
                                SimpleSpanProcessor TreeConsoleExporter;
                                SimpleSpanProcessor memory_exporter] |} ] |},
       replicate (S (length later))
         {| instrumenting_module_name := name;
            tracer_provider :=
              {| provider_obj := 0;
                 resource := [(SERVICE_NAME, "promptflow")];
                 span_processors :=
                   [BatchSpanProcessor MdcExporter;
                    SimpleSpanProcessor TreeConsoleExporter;
                    SimpleSpanProcessor memory_exporter] |} |}).
Proof.
  intros st1 t.
  pose proof (get_tracer_sets_instance name st) as Hset. fold st1 t in Hset.
  split; [by apply get_tracer_cached|].
  split; [by apply get_tracer_calls_cached|].
  cbn [get_tracer_calls].
  pose proof (get_tracer_sets_instance name initial_tracer_state) as Hinit.
  destruct (get_tracer name initial_tracer_state) as [st0 t0] eqn:Hfirst.
  simpl in Hinit.
  rewrite (get_tracer_calls_cached later st0 t0 Hinit).
  by injection Hfirst as <- <-.
Qed.

Example get_tracer_two_names :
  (get_tracer_calls ["a"; "b"; "a"] initial_tracer_state).2
  = replicate 3 (get_tracer "a" initial_tracer_state).2.
Proof. reflexivity. Qed.

End tracer_facts.

(** ** generate_seed_question *)

Module generate_question_facts.
Import generate_question.

(** C10. With a context that is [None] or empty, [generate_seed_question]
    returns the empty string and leaves the world as it was, whatever
    [llm_call] would do: the callable is not invoked. With a non-empty
    context it returns what [llm_call] returns for the connection, the model
    name, the prompt, the temperature and [max_tokens] it was given. *)
Theorem generate_seed_question_spec {Connection PyFloat Value World : Type}
    (py_str : string → Value)
    (llm_call : Connection → string → string → PyFloat → Z → World → Value * World)
    (connection : Connection) (model prompt : string) (context : option string)
    (temperature : PyFloat) (max_tokens : Z) (w : World) :
  (context = None ∨ context = Some "" →
     generate_seed_question py_str llm_call connection model prompt context temperature max_tokens w
     = (py_str "", w))
  ∧ (∀ text, context = Some text → text ≠ "" →
     generate_seed_question py_str llm_call connection model prompt context temperature max_tokens w
     = llm_call connection model prompt temperature max_tokens w).
Proof.
  unfold generate_seed_question. split.
  - by intros [-> | ->].
  - intros text -> Hne. simpl.
    rewrite bool_decide_eq_false_2 by done.
    by destruct (llm_call _ _ _ _ _ _).
Qed.

Lemma generate_seed_question_spec_witness :
  generate_seed_question id counting_llm_call () "gpt-4" "Ask." None (1 # 1)%Q 512 0 = ("", 0)
  ∧ generate_seed_question id counting_llm_call () "gpt-4" "Ask." (Some "") (1 # 1)%Q 512 0 = ("", 0)
  ∧ generate_seed_question id counting_llm_call () "gpt-4" "Ask." (Some "A text chunk.") (1 # 1)%Q 512 0
    = ("Ask.", 1).
Proof.
  split; [|split].
  - apply (generate_seed_question_spec id counting_llm_call () "gpt-4" "Ask." None (1 # 1)%Q 512 0).
    left. reflexivity.
  - apply (generate_seed_question_spec id counting_llm_call () "gpt-4" "Ask." (Some "") (1 # 1)%Q 512 0).
    right. reflexivity.
  - apply (generate_seed_question_spec id counting_llm_call () "gpt-4" "Ask."
             (Some "A text chunk.") (1 # 1)%Q 512 0 ) with (text := "A text chunk.").
    + reflexivity.
    + discriminate.
Defined.

End generate_question_facts.

(** ** The experiment controller: start and stop *)

Module controller_facts.
Import experiment.

Lemma str_contains_end (needle front : string) :
  str_contains needle (front +:+ needle) = true.
Proof.
  apply str_contains_app_r.
  destruct needle as [|a needle]; [reflexivity|].
  simpl. rewrite bool_decide_eq_true_2 by done.
  assert (∀ s, str_prefix s s = true) as Hrefl.
  { intros s. induction s as [|b s IH]; simpl; [done|].
    by rewrite bool_decide_eq_true_2, IH. }
  by rewrite Hrefl.
Qed.

Lemma invalid_state_message_mentions (e : Experiment) :
  str_contains (exp_name e) (invalid_state_message e) = true
  ∧ str_contains (status_str (status e)) (invalid_state_message e) = true.
Proof.
  unfold invalid_state_message. split.
  - apply str_contains_middle.
  - apply str_contains_app_r, str_contains_app_r, str_contains_end.
Qed.

(** C2. Starting an experiment whose status is [Queuing] or [InProgress]
    fails: the call raises [RunOperationError], an error of the
    InvalidStateError kind, with the message "Experiment <name> is <status>",
    which contains the experiment's name and its current status, and the
    experiment is left exactly as it was. *)
Theorem start_of_active_experiment_fails (e : Experiment) :
  status e = Queuing ∨ status e = InProgress →
  ∃ msg,
    start e = (e, Raise (RunOperationError msg))
    ∧ error_kind (RunOperationError msg) = InvalidStateError
    ∧ msg = "Experiment " +:+ exp_name e +:+ " is " +:+ status_str (status e)
    ∧ str_contains (exp_name e) msg = true
    ∧ str_contains (status_str (status e)) msg = true.
Proof.
  intros Hactive. exists (invalid_state_message e).
  destruct (invalid_state_message_mentions e) as [Hname Hstatus].
  repeat split; try done.
  unfold start. by destruct Hactive as [-> | ->].
Qed.

Lemma runs_of_stop (node : string) (e : Experiment) :
  runs_of node (stop e).1
  = if is_active (status e) then cancel_run <$> runs_of node e else runs_of node e.
Proof.
  unfold stop, runs_of. destruct (is_active (status e)); simpl; [|done].
  rewrite lookup_fmap. by destruct (node_runs e !! node).
Qed.

Lemma cancel_run_terminal (r : NodeRun) : run_terminal (run_status (cancel_run r)) = true.
Proof. unfold cancel_run. by destruct (run_terminal (run_status r)) eqn:Hterm. Qed.

Lemma cancel_run_id (r : NodeRun) : run_terminal (run_status r) = true → cancel_run r = r.
Proof. unfold cancel_run. by intros ->. Qed.

(** C3. Stopping an experiment that is [InProgress] succeeds and leaves it
    [Terminated]; every node run that was [Running] (or still [Queued]) is
    [Canceled], under the same run name, and the runs that had already ended
    are kept as they were. Stopping an experiment whose status is terminal
    changes nothing and raises no error. *)
Theorem stop_spec (e : Experiment) :
  (status e = InProgress →
     ∃ e', stop e = (e', Ok e')
       ∧ status e' = Terminated
       ∧ exp_name e' = exp_name e
       ∧ ∀ node i r, runs_of node e !! i = Some r →
           ∃ r', runs_of node e' !! i = Some r'
             ∧ run_name r' = run_name r
             ∧ (run_status r = RunRunning ∨ run_status r = RunQueued → run_status r' = RunCanceled)
             ∧ (run_terminal (run_status r) = true → r' = r))
  ∧ (is_terminal (status e) = true → stop e = (e, Ok e)).
Proof.
  split.
  - intros Hstatus. exists (stop e).1.
    assert (is_active (status e) = true) as Hactive by by rewrite Hstatus.
    split; [|split; [|split]].
    + unfold stop. by rewrite Hactive.
    + unfold stop. by rewrite Hactive.
    + unfold stop. by rewrite Hactive.
    + intros node i r Hr. exists (cancel_run r).
      rewrite runs_of_stop, Hactive, list_lookup_fmap, Hr.
      split; [done|]. unfold cancel_run.
      destruct r as [rn rs]; simpl. destruct rs; simpl; repeat split; try done;
        intros [?|?]; done.
  - intros Hterm. unfold stop.
    by destruct (status e).
Qed.

Lemma start_of_active_experiment_fails_witness :
  ∃ msg,
    start running_experiment = (running_experiment, Raise (RunOperationError msg))
    ∧ error_kind (RunOperationError msg) = InvalidStateError
    ∧ msg = "Experiment " +:+ exp_name running_experiment +:+ " is "
            +:+ status_str (status running_experiment)
    ∧ str_contains (exp_name running_experiment) msg = true
    ∧ str_contains (status_str (status running_experiment)) msg = true.
Proof.
  apply (start_of_active_experiment_fails running_experiment).
  right. reflexivity.
Defined.

Example start_message :
  (start running_experiment).2 = Raise (RunOperationError "Experiment basic-exp is InProgress").
Proof. reflexivity. Qed.

Lemma stop_spec_witness :
  (∃ e', stop running_experiment = (e', Ok e')
     ∧ status e' = Terminated
     ∧ exp_name e' = exp_name running_experiment
     ∧ ∀ node i r, runs_of node running_experiment !! i = Some r →
         ∃ r', runs_of node e' !! i = Some r'
           ∧ run_name r' = run_name r
           ∧ (run_status r = RunRunning ∨ run_status r = RunQueued → run_status r' = RunCanceled)
           ∧ (run_terminal (run_status r) = true → r' = r))
  ∧ stop (stop running_experiment).1 = ((stop running_experiment).1, Ok (stop running_experiment).1).
Proof.
  split.
  - apply (stop_spec running_experiment). reflexivity.
  - apply (stop_spec (stop running_experiment).1). reflexivity.
Defined.

Example stop_cancels_the_running_node :
  runs_of "main" (stop running_experiment).1
  = [ {| run_name := "main_1"; run_status := RunCanceled |} ].
Proof. vm_compute. reflexivity. Qed.

End controller_facts.

(** ** The experiment controller: the status chain *)

Module lifecycle_facts.
Import experiment.

(** What an event that can happen requires of the status, and the status it
    leaves. *)
Lemma step_status (e e' : Experiment) (ev : Event) :
  step e ev = Some e' →
  match ev with
  | EvStart => is_active (status e) = false ∧ status e' = Queuing
  | EvStop => status e' = if is_active (status e) then Terminated else status e
  | EvSchedulerBegins => status e = Queuing ∧ status e' = InProgress
  | EvAllNodesTerminal =>
      status e = InProgress ∧ all_nodes_terminal e = true
      ∧ status e' = (if any_node_failed e then Failed else Completed)
  | EvTerminate => (status e = Completed ∨ status e = Failed) ∧ status e' = Terminated
  | EvDispatch _ _ | EvRunStarts _ | EvRunEnds _ _ =>
      status e = InProgress ∧ status e' = InProgress
  end.
Proof.
  unfold step, start, stop. intros Hstep.
  destruct ev; repeat (case_match || case_decide); simplify_eq/=; done.
Qed.

Lemma status_history_head (e : Experiment) (evs : list Event) :
  ∃ tail, status_history e evs = status e :: tail.
Proof.
  revert e. induction evs as [|ev evs IH]; intros e; simpl; [by eexists|].
  destruct (step e ev) as [e1|]; [|by eexists].
  case_decide as Hsame; [|by eexists].
  destruct (IH e1) as [tail ->]. rewrite Hsame. by eexists.
Qed.

(** From a started experiment on, a run without further [start] or [stop]
    walks down the rest of the chain. *)
Lemma status_history_rest (evs : list Event) (e : Experiment) :
  EvStart ∉ evs → EvStop ∉ evs →
  status e ≠ NotStarted → status e ≠ Canceled →
  ∃ outcome,
    (outcome = Completed ∨ outcome = Failed)
    ∧ (status e = Completed ∨ status e = Failed → outcome = status e)
    ∧ status_history e evs `prefix_of` rest_of_chain (status e) outcome
    ∧ ∀ e', run e evs = Some e' → status e' = Terminated →
        status_history e evs = rest_of_chain (status e) outcome.
Proof.
  revert e. induction evs as [|ev evs IH]; intros e Hstart Hstop Hns Hnc.
  - exists (if decide (status e = Failed) then Failed else Completed).
    split; [case_decide; auto|]. split; [intros [?|?]; case_decide; congruence|].
    simpl. split.
    + destruct (status e); try done; by eexists.
    + intros e' [= <-] Hterm. by rewrite Hterm.
  - apply not_elem_of_cons in Hstart as [Hev1 Hstart].
    apply not_elem_of_cons in Hstop as [Hev2 Hstop].
    simpl. destruct (step e ev) as [e1|] eqn:Hstep; cycle 1.
    { exists (if decide (status e = Failed) then Failed else Completed).
      split; [case_decide; auto|]. split; [intros [?|?]; case_decide; congruence|].
      split; [|done]. destruct (status e); try done; by eexists. }
    pose proof (step_status _ _ _ Hstep) as Hst.
    assert (status e1 ≠ NotStarted ∧ status e1 ≠ Canceled) as [Hns1 Hnc1].
    { destruct ev; try done; destruct_and?; try destruct (any_node_failed e);
        split; congruence. }
    destruct (IH e1 Hstart Hstop Hns1 Hnc1) as (o1 & Ho1 & Hsame1 & Hpre1 & Hfull1).
    case_decide as Hsame.
    + exists o1. rewrite <- Hsame. repeat split; try done.
    + exists (if decide (status e = Completed ∨ status e = Failed) then status e else o1).
      assert (rest_of_chain (status e)
                (if decide (status e = Completed ∨ status e = Failed) then status e else o1)
              = status e :: rest_of_chain (status e1) o1) as Hchain.
      { revert Hst Hsame Hsame1.
        generalize (status e1) (status e) (any_node_failed e).
        intros s1 s failed Hst Hsame Hsame1.
        destruct ev; try done; destruct_and?; destruct_or?; simplify_eq; try done;
          destruct failed; simpl; try done; rewrite Hsame1 by auto; done. }
      rewrite Hchain. split; [case_decide; [done|auto]|].
      split; [intros Hcf; by rewrite decide_True|].
      split; [by apply prefix_cons|].
      intros e' Hrun Hterm. f_equal. by apply (Hfull1 e').
Qed.

(** C4. A run of an experiment, started once from [NotStarted] and not
    stopped, follows the chain: [start] takes it to [Queuing], the scheduler's
    beginning to [InProgress], all nodes being terminal to [Completed] or
    [Failed], and from there it goes to [Terminated]. Its status history is a
    prefix of that chain, and the whole chain when it reaches [Terminated]:
    a finished run passes through [Completed] or [Failed] first. Every
    change of status other than by [stop] is one of these four steps or the
    [start] of a new run. *)
Theorem status_follows_the_chain (name : string) (node_names : list string) (evs : list Event) :
  EvStart ∉ evs → EvStop ∉ evs →
  (∃ outcome,
     (outcome = Completed ∨ outcome = Failed)
     ∧ status_history (create name node_names) (EvStart :: evs)
         `prefix_of` [NotStarted; Queuing; InProgress; outcome; Terminated]
     ∧ ∀ e', run (create name node_names) (EvStart :: evs) = Some e' →
         status e' = Terminated →
         status_history (create name node_names) (EvStart :: evs)
         = [NotStarted; Queuing; InProgress; outcome; Terminated])
  ∧ (∀ e ev e', step e ev = Some e' → status e' ≠ status e → ev ≠ EvStop →
       (ev = EvStart ∧ is_active (status e) = false ∧ status e' = Queuing)
       ∨ (ev = EvSchedulerBegins ∧ status e = Queuing ∧ status e' = InProgress)
       ∨ (ev = EvAllNodesTerminal ∧ status e = InProgress ∧ all_nodes_terminal e = true
          ∧ (status e' = Completed ∨ status e' = Failed))
       ∨ (ev = EvTerminate ∧ (status e = Completed ∨ status e = Failed)
          ∧ status e' = Terminated)).
Proof.
  intros Hstart Hstop. split.
  - set (e1 := (start (create name node_names)).1).
    destruct (status_history_rest evs e1 Hstart Hstop) as (o & Ho & _ & Hpre & Hfull);
      [done..|].
    exists o. split; [done|].
    change (status_history (create name node_names) (EvStart :: evs))
      with (NotStarted :: status_history e1 evs).
    change (run (create name node_names) (EvStart :: evs)) with (run e1 evs).
    split.
    + by apply prefix_cons.
    + intros e' Hrun Hterm. f_equal. by apply (Hfull e').
  - intros e ev e' Hstep Hchange Hnostop.
    pose proof (step_status _ _ _ Hstep) as Hst.
    destruct ev; try done; destruct_and?.
    + auto.
    + auto.
    + congruence.
    + congruence.
    + congruence.
    + right. right. left. repeat split; try done.
      destruct (any_node_failed e); auto.
    + right. right. right. auto.
Qed.

Lemma scheduler_run_has_no_start (tag : string) : EvStart ∉ scheduler_run tag.
Proof.
  unfold scheduler_run. intros Hin.
  repeat (apply elem_of_cons in Hin as [Hin|Hin]; [discriminate|]).
  by apply elem_of_nil in Hin.
Defined.

Lemma scheduler_run_has_no_stop (tag : string) : EvStop ∉ scheduler_run tag.
Proof.
  unfold scheduler_run. intros Hin.
  repeat (apply elem_of_cons in Hin as [Hin|Hin]; [discriminate|]).
  by apply elem_of_nil in Hin.
Defined.

Example first_run_history :
  status_history basic_experiment (EvStart :: scheduler_run "1")
  = [NotStarted; Queuing; InProgress; Completed; Terminated].
Proof. vm_compute. reflexivity. Qed.

Lemma status_follows_the_chain_witness :
  ∃ outcome,
    (outcome = Completed ∨ outcome = Failed)
    ∧ status_history (create "basic-exp" ["main"; "eval"]) (EvStart :: scheduler_run "1")
        `prefix_of` [NotStarted; Queuing; InProgress; outcome; Terminated]
    ∧ ∀ e', run (create "basic-exp" ["main"; "eval"]) (EvStart :: scheduler_run "1") = Some e' →
        status e' = Terminated →
        status_history (create "basic-exp" ["main"; "eval"]) (EvStart :: scheduler_run "1")
        = [NotStarted; Queuing; InProgress; outcome; Terminated].
Proof.
  apply (status_follows_the_chain "basic-exp" ["main"; "eval"] (scheduler_run "1")).
  - apply scheduler_run_has_no_start.
  - apply scheduler_run_has_no_stop.
Defined.

End lifecycle_facts.

(** ** The experiment controller: the history of node runs *)

Module history_facts.
Import experiment.

Lemma update_latest_length (f : NodeRun → NodeRun) (runs : list NodeRun) :
  length (update_latest f runs) = length runs.
Proof. apply length_alter. Qed.

Lemma update_latest_app (f : NodeRun → NodeRun) (old new : list NodeRun) :
  new ≠ [] → update_latest f (old ++ new) = old ++ update_latest f new.
Proof.
  intros Hnew. unfold update_latest.
  destruct new as [|r new]; [done|].
  rewrite alter_app_r_alt; rewrite length_app; simpl; [|lia].
  do 2 f_equal. lia.
Qed.

(** The history of a node after an event. *)
Lemma step_runs_of (node : string) (e e' : Experiment) (ev : Event) :
  step e ev = Some e' →
  runs_of node e' =
  match ev with
  | EvStop => if is_active (status e) then cancel_run <$> runs_of node e else runs_of node e
  | EvDispatch n run =>
      if decide (n = node)
      then runs_of node e ++ [{| run_name := run; run_status := RunQueued |}]
      else runs_of node e
  | EvRunStarts n =>
      if decide (n = node) then update_latest (set_run_status RunRunning) (runs_of node e)
      else runs_of node e
  | EvRunEnds n outcome =>
      if decide (n = node) then update_latest (set_run_status outcome) (runs_of node e)
      else runs_of node e
  | _ => runs_of node e
  end.
Proof.
  intros Hstep. destruct ev.
  - unfold step, start in Hstep. by repeat (case_match; simplify_eq/=).
  - injection Hstep as <-. apply controller_facts.runs_of_stop.
  - unfold step in Hstep. by repeat (case_match; simplify_eq/=).
  - unfold step in Hstep. repeat (case_match; simplify_eq/=);
      unfold runs_of at 1; simpl.
    + by rewrite lookup_insert_eq.
    + by rewrite lookup_insert_ne.
  - unfold step in Hstep. repeat (case_match; simplify_eq/=);
      unfold runs_of; simpl;
      rewrite ?lookup_alter_eq, ?lookup_alter_ne by done; try done;
      by destruct (node_runs e !! node).
  - unfold step in Hstep. repeat (case_match; simplify_eq/=);
      unfold runs_of; simpl;
      rewrite ?lookup_alter_eq, ?lookup_alter_ne by done; try done;
      by destruct (node_runs e !! node).
  - unfold step in Hstep. by repeat (case_match; simplify_eq/=).
  - unfold step in Hstep. by repeat (case_match; simplify_eq/=).
Qed.

Lemma step_length (node : string) (e e' : Experiment) (ev : Event) :
  step e ev = Some e' →
  length (runs_of node e')
  = length (runs_of node e) + (if is_dispatch_of node ev then 1 else 0).
Proof.
  intros Hstep. rewrite (step_runs_of node _ _ _ Hstep).
  destruct ev; simpl; try lia.
  - destruct (is_active (status e)); [rewrite length_fmap|]; lia.
  - case_decide as Hn.
    + rewrite bool_decide_eq_true_2 by done. rewrite length_app. simpl. lia.
    + rewrite bool_decide_eq_false_2 by done. lia.
  - case_decide; [rewrite update_latest_length|]; lia.
  - case_decide; [rewrite update_latest_length|]; lia.
Qed.

Lemma run_length (node : string) (evs : list Event) (e e' : Experiment) :
  run e evs = Some e' →
  length (runs_of node e') = length (runs_of node e) + dispatch_count node evs.
Proof.
  revert e. induction evs as [|ev evs IH]; intros e Hrun; simpl in Hrun.
  - injection Hrun as <-. unfold dispatch_count. simpl. lia.
  - destruct (step e ev) as [e1|] eqn:Hstep; [|done].
    rewrite (IH _ Hrun), (step_length node _ _ _ Hstep).
    unfold dispatch_count. rewrite filter_cons.
    destruct (is_dispatch_of node ev); simpl; lia.
Qed.

Lemma run_app (evs1 evs2 : list Event) (e : Experiment) :
  run e (evs1 ++ evs2) = match run e evs1 with Some e1 => run e1 evs2 | None => None end.
Proof.
  revert e. induction evs1 as [|ev evs1 IH]; intros e; simpl; [done|].
  by destruct (step e ev).
Qed.

(** Before the first [start] nothing happens to an experiment. *)
Lemma run_not_started (evs : list Event) (e e' : Experiment) :
  status e = NotStarted → EvStart ∉ evs → run e evs = Some e' → e' = e.
Proof.
  intros Hns. induction evs as [|ev evs IH]; intros Hstart Hrun; simpl in Hrun.
  - by injection Hrun.
  - apply not_elem_of_cons in Hstart as [Hev Hstart].
    destruct (step e ev) as [e1|] eqn:Hstep; [|done].
    assert (e1 = e) as ->; [|by apply IH].
    pose proof (lifecycle_facts.step_status _ _ _ Hstep) as Hst.
    destruct ev; try done; destruct_and?; destruct_or?; try congruence.
    simpl in Hstep. unfold stop in Hstep. rewrite Hns in Hstep. by injection Hstep.
Qed.

(** What an event leaves of the rest of the experiment, and what it
    requires of the nodes. *)
Lemma step_inv (e e' : Experiment) (ev : Event) :
  step e ev = Some e' →
  nodes e' = nodes e
  ∧ dispatched e' =
    match ev with
    | EvStart => []
    | EvDispatch n _ => dispatched e ++ [n]
    | _ => dispatched e
    end
  ∧ match ev with
    | EvDispatch n _ => n ∈ nodes e ∧ n ∉ dispatched e
    | EvRunStarts n => n ∈ dispatched e ∧ latest_status n e = Some RunQueued
    | EvRunEnds n outcome =>
        n ∈ dispatched e ∧ run_terminal outcome = true
        ∧ ∃ s, latest_status n e = Some s ∧ run_terminal s = false
    | _ => True
    end.
Proof.
  unfold step, start, stop. intros Hstep.
  destruct ev; repeat (case_match || case_decide); simplify_eq/=;
    repeat match goal with
      | H : _ && _ = true |- _ => apply andb_prop in H as [? ?]
      | H : bool_decide _ = true |- _ => apply bool_decide_eq_true in H
      | H : negb _ = true |- _ => apply negb_true_iff in H
      | H : bool_decide _ = false |- _ => apply bool_decide_eq_false in H
      end; try discriminate; eauto 10.
Qed.

Lemma create_consistent (name : string) (node_names : list string) :
  consistent (create name node_names).
Proof.
  split; simpl.
  - intros node Hin. by apply elem_of_nil in Hin.
  - intros node i r. unfold runs_of. simpl. by rewrite lookup_empty.
  - intros node _. unfold runs_of. simpl. rewrite lookup_empty. constructor.
Qed.

Lemma settled_lookup (runs : list NodeRun) (i : nat) (r : NodeRun) :
  settled runs → runs !! i = Some r → run_terminal (run_status r) = true.
Proof. intros Hall Hr. by eapply (Forall_lookup_1 _ _ _ _ Hall Hr). Qed.

Lemma settled_cancel (runs : list NodeRun) : settled (cancel_run <$> runs).
Proof.
  apply Forall_fmap, Forall_forall. intros r _. apply controller_facts.cancel_run_terminal.
Qed.

Lemma settled_cancel_id (runs : list NodeRun) : settled runs → cancel_run <$> runs = runs.
Proof.
  induction 1 as [|r runs Hr _ IH]; [done|].
  rewrite fmap_cons, IH. by rewrite controller_facts.cancel_run_id.
Qed.

Lemma update_latest_lookup_earlier (f : NodeRun → NodeRun) (runs : list NodeRun) (i : nat) :
  S i < length runs → update_latest f runs !! i = runs !! i.
Proof. intros Hlt. unfold update_latest. apply list_lookup_alter_ne. lia. Qed.

(** When the latest run of a history has ended and all earlier ones too, the
    history is settled. *)
Lemma settled_of_latest (runs : list NodeRun) (s : RunStatus) :
  (∀ i r, runs !! i = Some r → S i < length runs → run_terminal (run_status r) = true) →
  run_status <$> last runs = Some s → run_terminal s = true →
  settled runs.
Proof.
  intros Hearlier Hlast Hs. apply Forall_lookup. intros i r Hr.
  destruct (decide (S i < length runs)) as [Hlt|Hge]; [by eapply Hearlier|].
  pose proof (lookup_lt_Some _ _ _ Hr) as Hi.
  rewrite last_lookup in Hlast.
  replace (pred (length runs)) with i in Hlast by lia.
  rewrite Hr in Hlast. simpl in Hlast. by injection Hlast as ->.
Qed.

Lemma step_consistent (e e' : Experiment) (ev : Event) :
  consistent e → step e ev = Some e' → consistent e'.
Proof.
  intros [Hnodes Hearlier Hidle] Hstep.
  destruct (step_inv _ _ _ Hstep) as (Hn & Hd & Hguard).
  pose proof (lifecycle_facts.step_status _ _ _ Hstep) as Hst.
  pose proof (λ node, step_runs_of node _ _ _ Hstep) as Hruns.
  destruct ev; destruct_and?.
  - (* start *)
    assert (∀ node, settled (runs_of node e')) as Hall.
    { intros node. rewrite Hruns. apply Hidle. by left. }
    split.
    + intros node. rewrite Hd. by intros ?%elem_of_nil.
    + intros node i r Hr _. by eapply settled_lookup.
    + done.
  - (* stop *)
    split.
    + intros node. rewrite Hd, Hn. apply Hnodes.
    + intros node i r. rewrite Hruns.
      destruct (is_active (status e)); [|apply Hearlier].
      intros Hr _. eapply settled_lookup; [apply settled_cancel|done].
    + intros node. rewrite Hruns, Hd, Hst.
      destruct (is_active (status e)) eqn:Hact; [intros _; apply settled_cancel|].
      rewrite Hact. apply Hidle.
  - (* the scheduler begins *)
    split.
    + intros node. rewrite Hd, Hn. apply Hnodes.
    + intros node i r. rewrite Hruns. apply Hearlier.
    + intros node. rewrite Hruns, Hd.
      match goal with H : status e' = _ |- _ => rewrite H end.
      intros [?|?]; [done|]. apply Hidle. by right.
  - (* dispatch *)
    split.
    + intros n. rewrite Hd, Hn. intros [?| ->%list_elem_of_singleton]%elem_of_app; auto.
    + intros n i r. rewrite Hruns. case_decide as Hnode; [|apply Hearlier].
      subst. rewrite length_app. simpl. intros Hr Hlt.
      rewrite lookup_app_l in Hr by lia.
      eapply settled_lookup; [|done]. apply Hidle. by right.
    + intros n. rewrite Hruns, Hd.
      match goal with H : status e' = _ |- _ => rewrite H end.
      intros [?|Hnotin]; [done|].
      apply not_elem_of_app in Hnotin as [Hnotin Hne].
      rewrite decide_False by (intros ->; apply Hne; by left).
      apply Hidle. by right.
  - (* a run starts *)
    split.
    + intros n. rewrite Hd, Hn. apply Hnodes.
    + intros n i r. rewrite Hruns. case_decide as Hnode; [|apply Hearlier].
      rewrite update_latest_length. intros Hr Hlt.
      rewrite update_latest_lookup_earlier in Hr by done. by eapply Hearlier.
    + intros n. rewrite Hruns, Hd.
      match goal with H : status e' = _ |- _ => rewrite H end.
      intros [?|Hnotin]; [done|].
      rewrite decide_False by congruence. apply Hidle. by right.
  - (* a run ends *)
    split.
    + intros n. rewrite Hd, Hn. apply Hnodes.
    + intros n i r. rewrite Hruns. case_decide as Hnode; [|apply Hearlier].
      rewrite update_latest_length. intros Hr Hlt.
      rewrite update_latest_lookup_earlier in Hr by done. by eapply Hearlier.
    + intros n. rewrite Hruns, Hd.
      match goal with H : status e' = _ |- _ => rewrite H end.
      intros [?|Hnotin]; [done|].
      rewrite decide_False by congruence. apply Hidle. by right.
  - (* all nodes are terminal *)
    assert (∀ node, settled (runs_of node e')) as Hall.
    { intros node. rewrite Hruns.
      destruct (decide (node ∈ dispatched e)) as [Hin|Hout]; [|apply Hidle; by right].
      match goal with H : all_nodes_terminal e = true |- _ => rename H into Hterm end.
      unfold all_nodes_terminal in Hterm.
      rewrite forallb_forall in Hterm.
      specialize (Hterm node (proj1 (list_elem_of_In _ _) (Hnodes _ Hin))).
      apply andb_prop in Hterm as [_ Hterm].
      destruct (latest_status node e) as [s|] eqn:Hlatest; [|done].
      eapply settled_of_latest; [apply Hearlier|exact Hlatest|done]. }
    split.
    + intros node. rewrite Hd, Hn. apply Hnodes.
    + intros node i r Hr _. by eapply settled_lookup.
    + done.
  - (* terminate *)
    split.
    + intros node. rewrite Hd, Hn. apply Hnodes.
    + intros node i r. rewrite Hruns. apply Hearlier.
    + intros node _. rewrite Hruns. apply Hidle. left.
      by destruct_or?; match goal with H : status e = _ |- _ => rewrite H end.
Qed.

Lemma run_consistent (evs : list Event) (e e' : Experiment) :
  consistent e → run e evs = Some e' → consistent e'.
Proof.
  revert e. induction evs as [|ev evs IH]; intros e Hcons Hrun; simpl in Hrun.
  - by injection Hrun as <-.
  - destruct (step e ev) as [e1|] eqn:Hstep; [|done].
    eapply IH; [|done]. by eapply step_consistent.
Qed.

(** A settled part of a history is never touched again: histories only grow
    at the end, and only a run that is still in flight changes. *)
Lemma step_keeps_settled_prefix (node : string) (old : list NodeRun) (e e' : Experiment) (ev : Event) :
  step e ev = Some e' → settled old →
  old `prefix_of` runs_of node e → old `prefix_of` runs_of node e'.
Proof.
  intros Hstep Hold [new Hnew].
  destruct (step_inv _ _ _ Hstep) as (_ & _ & Hguard).
  rewrite (step_runs_of node _ _ _ Hstep).
  assert (∀ f s, latest_status node e = Some s → run_terminal s = false →
            old `prefix_of` update_latest f (runs_of node e)) as Hupdate.
  { intros f s Hlatest Hs. rewrite Hnew.
    destruct new as [|r new].
    - exfalso. unfold latest_status in Hlatest.
      rewrite Hnew, app_nil_r, last_lookup in Hlatest.
      destruct (old !! pred (length old)) as [r|] eqn:Hr; [|done].
      injection Hlatest as <-.
      by rewrite (settled_lookup _ _ _ Hold Hr) in Hs.
    - rewrite update_latest_app by done. by apply prefix_app_r. }
  destruct ev; try (by exists new).
  - destruct (is_active (status e)); [|by exists new].
    rewrite Hnew, fmap_app, settled_cancel_id by done. by apply prefix_app_r.
  - case_decide; [|by exists new]. rewrite Hnew, <- app_assoc. by apply prefix_app_r.
  - case_decide; [|by exists new]. subst. destruct Hguard as [_ Hlatest].
    by eapply Hupdate.
  - case_decide; [|by exists new]. subst. destruct Hguard as (_ & _ & s & Hlatest & Hs).
    by eapply Hupdate.
Qed.

Lemma run_keeps_settled_prefix (node : string) (old : list NodeRun) (evs : list Event) (e e' : Experiment) :
  run e evs = Some e' → settled old →
  old `prefix_of` runs_of node e → old `prefix_of` runs_of node e'.
Proof.
  revert e. induction evs as [|ev evs IH]; intros e Hrun Hold Hpre; simpl in Hrun.
  - by injection Hrun as <-.
  - destruct (step e ev) as [e1|] eqn:Hstep; [|done].
    eapply IH; [done..|]. by eapply step_keeps_settled_prefix.
Qed.

(** C6. The history of a node is as long as the number of times the node was
    dispatched: it is empty for a fresh experiment and stays so until the
    first [start]; and when a reachable experiment is started again, the
    entries of its earlier runs are kept as they were, the new entries
    coming after them. *)
Theorem node_runs_history (name : string) (node_names : list string)
    (evs1 evs2 : list Event) (e1 e2 : Experiment) (node : string) :
  run (create name node_names) evs1 = Some e1 →
  run e1 (EvStart :: evs2) = Some e2 →
  runs_of node (create name node_names) = []
  ∧ (EvStart ∉ evs1 → runs_of node e1 = [])
  ∧ length (runs_of node e1) = dispatch_count node evs1
  ∧ length (runs_of node e2) = dispatch_count node (evs1 ++ EvStart :: evs2)
  ∧ runs_of node e1 `prefix_of` runs_of node e2.
Proof.
  intros Hrun1 Hrun2.
  assert (runs_of node (create name node_names) = []) as Hfresh.
  { unfold runs_of. simpl. by rewrite lookup_empty. }
  split; [done|]. split; [|split; [|split]].
  - intros Hnostart. by rewrite (run_not_started evs1 (create name node_names) e1 eq_refl Hnostart Hrun1).
  - rewrite (run_length node _ _ _ Hrun1), Hfresh. simpl. lia.
  - assert (run (create name node_names) (evs1 ++ EvStart :: evs2) = Some e2) as Hrun.
    { by rewrite run_app, Hrun1. }
    rewrite (run_length node _ _ _ Hrun), Hfresh. simpl. lia.
  - eapply run_keeps_settled_prefix; [exact Hrun2| |done].
    pose proof (run_consistent _ _ _ (create_consistent name node_names) Hrun1) as Hcons.
    apply (idle_runs_settled _ Hcons). left.
    destruct (step e1 EvStart) as [e1'|] eqn:Hstep.
    + by destruct (lifecycle_facts.step_status _ _ _ Hstep).
    + cbn [run] in Hrun2. by rewrite Hstep in Hrun2.
Qed.

Example two_runs_of_main :
  runs_of "main" <$> run basic_experiment
    (EvStart :: scheduler_run "1" ++ EvStart :: scheduler_run "2")
  = Some [ {| run_name := "main_1"; run_status := RunCompleted |};
           {| run_name := "main_2"; run_status := RunCompleted |} ].
Proof. vm_compute. reflexivity. Qed.

Lemma node_runs_history_witness :
  runs_of "main" (create "basic-exp" ["main"; "eval"]) = []
  ∧ (EvStart ∉ EvStart :: scheduler_run "1" → runs_of "main" after_first_run = [])
  ∧ length (runs_of "main" after_first_run)
    = dispatch_count "main" (EvStart :: scheduler_run "1")
  ∧ length (runs_of "main" after_second_run)
    = dispatch_count "main" ((EvStart :: scheduler_run "1") ++ EvStart :: scheduler_run "2")
  ∧ runs_of "main" after_first_run `prefix_of` runs_of "main" after_second_run.
Proof.
  apply (node_runs_history "basic-exp" ["main"; "eval"]
           (EvStart :: scheduler_run "1") (scheduler_run "2")
           after_first_run after_second_run "main").
  - vm_compute. reflexivity.
  - vm_compute. reflexivity.
Defined.

End history_facts.

(** ** The call recorder *)

Module recording_facts.
Import recording.

Section recorder_facts.

Context {Call Key Output World : Type} `{Countable Key}.
Variable key_of : Call → Key.
Variable live : Call → World → Output * World.

Implicit Types (st : @RecordStorage Key Output _ _) (rs : list (@CallRecord Key Output)).

Lemma lookup_record_None (k : Key) (n : nat) rs :
  Forall (λ r, ¬ (record_key r = k ∧ record_index r = n)) rs →
  lookup_record k n rs = None.
Proof.
  induction 1 as [|r rs Hr _ IH]; simpl; [done|].
  by rewrite IH, decide_False.
Qed.

Lemma lookup_record_app (k : Key) (n : nat) rs rs' :
  lookup_record k n (rs ++ rs')
  = match lookup_record k n rs' with
    | Some out => Some out
    | None => lookup_record k n rs
    end.
Proof.
  induction rs as [|r rs IH]; simpl.
  - by destruct (lookup_record k n rs').
  - rewrite IH. by destruct (lookup_record k n rs').
Qed.

(** A record of the log is the one a lookup finds when no later record has
    its key and index, whatever came before it. *)
Lemma lookup_record_latest (k : Key) (n : nat) (out : Output) rs rs' :
  Forall (λ r, ¬ (record_key r = k ∧ record_index r = n)) rs' →
  lookup_record k n
    (rs ++ {| record_key := k; record_index := n; record_value := out |} :: rs')
  = Some out.
Proof.
  intros Hlater. rewrite lookup_record_app. simpl.
  rewrite lookup_record_None by done. by rewrite decide_True.
Qed.

Lemma lookup_record_unrecorded (k : Key) (n : nat) st :
  ¬ recorded k st → lookup_record k n (records st) = None.
Proof.
  intros Hnever. apply lookup_record_None, Forall_forall.
  intros r Hr [Hk _]. apply Hnever. by exists r.
Qed.

Lemma rewind_same st : rewind st st = st.
Proof. by destruct st. Qed.

Lemma record_call_ok (c : Call) (w : World) st :
  ∃ st' w' out,
    record_call key_of live c st w = (st', w', Ok out)
    ∧ live c w = (out, w')
    ∧ records st' = records st
        ++ [{| record_key := key_of c; record_index := next_index (key_of c) st;
               record_value := out |}]
    ∧ occurrences st' = <[key_of c := S (next_index (key_of c) st)]> (occurrences st).
Proof.
  unfold record_call. destruct (live c w) as [out w']. by do 3 eexists.
Qed.

(** The counters never go back while recording. *)
Lemma record_call_counts_up (c : Call) (w : World) (k : Key) st :
  (next_index k st ≤ next_index k (record_call key_of live c st w).1.1)%nat.
Proof.
  unfold record_call. destruct (live c w) as [out w']. unfold next_index. simpl.
  rewrite lookup_insert. case_decide as Hk; simpl; [|done].
  rewrite Hk. lia.
Qed.

(** A recording run never raises and returns what the live callable returns,
    acting on the world as the live callable does; it appends to the log
    records whose index is at or above the counter their key had when the run
    began. *)
Lemma recording_ok (cs : list Call) (w : World) st :
  ∃ st' w' outs new,
    run_calls key_of live Recording cs st w = (st', w', Ok outs)
    ∧ (∀ st0, run_calls key_of live Live cs st0 w = (st0, w', Ok outs))
    ∧ length outs = length cs
    ∧ records st' = records st ++ new
    ∧ Forall (λ r, (next_index (record_key r) st ≤ record_index r)%nat) new.
Proof.
  revert st w. induction cs as [|c cs IH]; intros st w; simpl.
  - exists st, w, [], []. by rewrite app_nil_r.
  - pose proof (λ k, record_call_counts_up c w k st) as Hup.
    destruct (record_call_ok c w st) as (st1 & w1 & out & Hcall & Hlive & Hrec & _).
    rewrite Hcall in Hup |- *. simpl in Hup. rewrite Hlive.
    destruct (IH st1 w1) as (st' & w' & outs & new & -> & Hrun & Hlen & Hnew & Hidx).
    eexists st', w', (out :: outs), (_ :: new).
    split; [done|]. split; [intros st0; by rewrite Hrun|].
    split; [simpl; lia|]. split.
    + by rewrite Hnew, Hrec, <- app_assoc.
    + constructor; [done|].
      eapply Forall_impl; [exact Hidx|]. simpl. intros r Hr.
      specialize (Hup (record_key r)). lia.
Qed.

(** Replaying the calls of a recording, in order, over the log the recording
    left and from the counters the recording started with, returns what the
    recording returned and leaves the world alone; the counters advance as
    they did while recording. Records of earlier runs in the log, whatever
    their keys and indices, do not matter. *)
Lemma replay_follows_recording (cs : list Call) (w w0 : World) st st' (w' : World)
    (outs : list Output) :
  run_calls key_of live Recording cs st w = (st', w', Ok outs) →
  run_calls key_of live Replaying cs (rewind st st') w0 = (rewind st' st', w0, Ok outs).
Proof.
  revert st w outs. induction cs as [|c cs IH]; intros st w outs Hrun.
  - simpl in Hrun. by injection Hrun as <- <- <-.
  - simpl in Hrun.
    destruct (record_call_ok c w st) as (st1 & w1 & out & Hcall & _ & Hrec & Hocc).
    rewrite Hcall in Hrun.
    destruct (recording_ok cs w1 st1) as (st2 & w2 & outs' & new & Hrest & _ & _ & Hnew & Hidx).
    rewrite Hrest in Hrun. injection Hrun as <- <- <-.
    simpl. unfold replay_call, rewind. simpl.
    change (next_index (key_of c) {| records := records st2; occurrences := occurrences st |})
      with (next_index (key_of c) st).
    rewrite Hnew, Hrec, <- app_assoc. simpl.
    rewrite lookup_record_latest.
    + rewrite <- Hocc.
      pose proof (IH st1 w1 outs' Hrest) as Hreplay. unfold rewind in Hreplay.
      rewrite Hnew, Hrec, <- app_assoc in Hreplay. simpl in Hreplay.
      by rewrite Hreplay.
    + eapply Forall_impl; [exact Hidx|]. simpl. intros r Hle [Hk Hn].
      rewrite Hk in Hle. unfold next_index in Hle at 1. rewrite Hocc, lookup_insert_eq in Hle.
      simpl in Hle. lia.
Qed.

(** C5. Recording a call and then replaying it returns the recorded result,
    for every instrumented call, at every point of a run and whatever the
    store already holds. In full: a recording run, started over any existing
    store, returns for each of its calls what the live callable returns and
    never raises; replaying the same calls over the store it leaves returns
    exactly those outputs, call by call, without invoking the live callable
    (the world a replay runs in is left as it was). The same holds for any
    stretch of calls recorded from any state of the store, replayed from the
    counters that stretch began with. Replaying a call whose key was never
    recorded raises [RecordNotFoundError], in every store, and leaves store
    and world as they were: there is no fallback to the live callable. *)
Theorem record_replay_round_trip (cs : list Call) (c : Call) (w w0 : World) st :
  (∃ st' w' outs,
     run_calls key_of live Recording cs (load_for_run st) w = (st', w', Ok outs)
     ∧ run_calls key_of live Live cs st w = (st, w', Ok outs)
     ∧ length outs = length cs
     ∧ run_calls key_of live Replaying cs (load_for_replay st') w0 = (st', w0, Ok outs))
  ∧ (∃ st' w' outs,
       run_calls key_of live Recording cs st w = (st', w', Ok outs)
       ∧ run_calls key_of live Live cs st w = (st, w', Ok outs)
       ∧ run_calls key_of live Replaying cs (rewind st st') w0 = (st', w0, Ok outs))
  ∧ (∃ st1 w1 out,
       call_tool key_of live Recording c st w = (st1, w1, Ok out)
       ∧ live c w = (out, w1)
       ∧ (call_tool key_of live Replaying c (rewind st st1) w0).2 = Ok out
       ∧ (call_tool key_of live Replaying c (rewind st st1) w0).1.2 = w0)
  ∧ (¬ recorded (key_of c) st →
     ∃ msg, call_tool key_of live Replaying c st w0 = (st, w0, Raise (RecordNotFoundError msg))).
Proof.
  split; [|split; [|split]].
  - destruct (recording_ok cs w (load_for_run st)) as (st' & w' & outs & new & Hrun & Hlive & Hlen & _).
    exists st', w', outs. split; [done|]. split; [done|]. split; [done|].
    rewrite <- (rewind_same st') at 2.
    apply (replay_follows_recording cs w w0 (load_for_run st) st' w' outs Hrun).
  - destruct (recording_ok cs w st) as (st' & w' & outs & new & Hrun & Hlive & _).
    exists st', w', outs. split; [done|]. split; [done|].
    rewrite <- (rewind_same st') at 2.
    by apply (replay_follows_recording cs w w0 st st' w' outs).
  - destruct (record_call_ok c w st) as (st1 & w1 & out & Hcall & Hlive & _).
    exists st1, w1, out. split; [done|]. split; [done|].
    assert (run_calls key_of live Recording [c] st w = (st1, w1, Ok [out])) as Hrun.
    { simpl. simpl in Hcall. by rewrite Hcall. }
    pose proof (replay_follows_recording [c] w w0 st st1 w1 [out] Hrun) as Hreplay.
    cbn [run_calls call_tool] in Hreplay |- *.
    destruct (replay_call key_of c (rewind st st1) w0) as [[sa wa] [oa|e]];
      [|discriminate Hreplay].
    by injection Hreplay as _ <- <-.
  - intros Hnever. eexists. simpl. unfold replay_call.
    by rewrite lookup_record_unrecorded.
Qed.

End recorder_facts.

Example replay_of_repeated_calls :
  let st := (run_calls id counting_tool Recording ["a"; "b"; "a"] empty_storage 0).1.1 in
  (run_calls id counting_tool Replaying ["a"; "b"; "a"] (load_for_replay st) 7).2
  = Ok ["a#0"; "b#1"; "a#2"].
Proof. vm_compute. reflexivity. Qed.

(** A run recorded over a store that already holds records of an earlier run
    replays what the later run recorded, not the earlier output. *)
Example replay_of_a_second_recording :
  record_value <$> records recorded_once = ["a#0"]
  ∧ record_value <$> records recorded_again = ["a#0"; "a#5"; "b#6"; "a#7"]
  ∧ (run_calls id counting_tool Replaying ["a"; "b"; "a"] (load_for_replay recorded_again) 9).2
    = Ok ["a#5"; "b#6"; "a#7"].
Proof. vm_compute. done. Qed.

Lemma record_replay_round_trip_witness :
  (∃ st' w' outs,
     run_calls id counting_tool Recording ["a"; "b"; "a"] (load_for_run recorded_once) 5
       = (st', w', Ok outs)
     ∧ run_calls id counting_tool Live ["a"; "b"; "a"] recorded_once 5 = (recorded_once, w', Ok outs)
     ∧ length outs = length ["a"; "b"; "a"]
     ∧ run_calls id counting_tool Replaying ["a"; "b"; "a"] (load_for_replay st') 9
       = (st', 9, Ok outs))
  ∧ (∃ st' w' outs,
       run_calls id counting_tool Recording ["a"; "b"; "a"] recorded_once 5 = (st', w', Ok outs)
       ∧ run_calls id counting_tool Live ["a"; "b"; "a"] recorded_once 5 = (recorded_once, w', Ok outs)
       ∧ run_calls id counting_tool Replaying ["a"; "b"; "a"] (rewind recorded_once st') 9
         = (st', 9, Ok outs))
  ∧ (∃ st1 w1 out,
       call_tool id counting_tool Recording "a" recorded_once 5 = (st1, w1, Ok out)
       ∧ counting_tool "a" 5 = (out, w1)
       ∧ (call_tool id counting_tool Replaying "a" (rewind recorded_once st1) 9).2 = Ok out
       ∧ (call_tool id counting_tool Replaying "a" (rewind recorded_once st1) 9).1.2 = 9)
  ∧ (∃ msg, call_tool id counting_tool Replaying "z" (load_for_replay recorded_again) 9
            = (load_for_replay recorded_again, 9, Raise (RecordNotFoundError msg))).
Proof.
  destruct (record_replay_round_trip id counting_tool ["a"; "b"; "a"] "a" 5 9
              recorded_once) as (Hrun & Hfrom & Hcall & _).
  destruct (record_replay_round_trip id counting_tool ["a"; "b"; "a"] "z" 5 9
              (load_for_replay recorded_again)) as (_ & _ & _ & Hmissing).
  split; [exact Hrun|]. split; [exact Hfrom|]. split; [exact Hcall|].
  apply Hmissing. intros (r & Hr & Hk).
  vm_compute in Hr.
  repeat (apply elem_of_cons in Hr as [->|Hr]; [discriminate Hk|]).
  by apply elem_of_nil in Hr.
Defined.

End recording_facts.

(** ** The recording fixtures and the polling helper of the tests *)

Module fixture_facts.
Import conftest.

Lemma wait_returns_inactive (s s' : experiment.ExperimentStatus)
    (polls : list experiment.ExperimentStatus) :
  experiment.wait_for_experiment_terminated s polls = Some s' →
  experiment.is_active s' = false.
Proof.
  revert s. induction polls as [|p polls IH]; intros s; simpl.
  - case_bool_decide as Hs; [done|]. intros [= <-].
    destruct s; try done; exfalso; apply Hs; set_solver.
  - case_bool_decide as Hs; [apply IH|]. intros [= <-].
    destruct s; try done; exfalso; apply Hs; set_solver.
Qed.

(** The helper returns at the first status that is neither [InProgress] nor
    [Queuing]: when a poll meets the experiment between [Completed] and
    [Terminated], it returns [Completed]. *)
Example wait_can_return_completed :
  experiment.wait_for_experiment_terminated experiment.Queuing
    [experiment.InProgress; experiment.Completed; experiment.Terminated]
  = Some experiment.Completed.
Proof. reflexivity. Qed.

End fixture_facts.

(** ** TreeConsoleSpanExporter *)

Module tree_exporter_facts.
Import tracer_manager.

Lemma for_each_span_fmap {A B : Type} (f : A → B) (line : ReadableSpan → A)
    (recurse : ReadableSpan → list A * Result unit)
    (recurse' : ReadableSpan → list B * Result unit) (spans : list ReadableSpan) :
  (∀ span, span ∈ spans → recurse' span = (f <$> (recurse span).1, (recurse span).2)) →
  for_each_span (λ span, f (line span)) recurse' spans
  = (f <$> (for_each_span line recurse spans).1, (for_each_span line recurse spans).2).
Proof.
  induction spans as [|span spans IH]; intros Hrec; simpl; [done|].
  rewrite (Hrec span) by left.
  rewrite IH by (intros s Hs; apply Hrec; by right).
  destruct (recurse span) as [out [[]|err]]; simpl; [|done].
  destruct (for_each_span line recurse spans) as [out' r]; simpl.
  by rewrite fmap_app.
Qed.

(** The lines [_print_tree] writes are the renderings of the spans it
    visits, and both end the same way. *)
Lemma print_tree_lines (depth : nat) (tree : gmap (option Z) (list ReadableSpan))
    (parent_id : option Z) (level : nat) :
  _print_tree depth tree parent_id level
  = ((λ entry, render_line entry.1 entry.2) <$> (printed_spans depth tree parent_id level).1,
     (printed_spans depth tree parent_id level).2).
Proof.
  revert parent_id level. induction depth as [|depth IH]; intros parent_id level; simpl; [done|].
  destruct (tree !! parent_id) as [spans|]; [|done].
  apply (for_each_span_fmap (λ entry, render_line entry.1 entry.2) (pair level)).
  intros span _. apply IH.
Qed.

(** *** Filing *)

Lemma children_file_span (self : TreeConsoleSpanExporter) (span : ReadableSpan) (parent_id : option Z) :
  children (span_tree (file_span self span)) parent_id
  = children (span_tree self) parent_id
    ++ (if decide (parent_id_of span = parent_id) then [span] else []).
Proof.
  unfold children, file_span. simpl.
  destruct (decide (parent_id_of span = parent_id)) as [<-|Hne].
  - rewrite lookup_alter_eq.
    destruct (span_tree self !! parent_id_of span) as [spans|] eqn:Hspans.
    + by rewrite Hspans.
    + by rewrite lookup_insert_eq.
  - rewrite lookup_alter_ne by done. rewrite app_nil_r.
    destruct (span_tree self !! parent_id_of span); [done|].
    by rewrite lookup_insert_ne.
Qed.

Lemma children_file_spans (spans : list ReadableSpan) (self : TreeConsoleSpanExporter) (parent_id : option Z) :
  children (span_tree (file_spans spans self)) parent_id
  = children (span_tree self) parent_id
    ++ filter (λ span, parent_id_of span = parent_id) spans.
Proof.
  revert self. induction spans as [|span spans IH]; intros self.
  - simpl. by rewrite app_nil_r.
  - unfold file_spans in *. simpl. rewrite IH, children_file_span, <- app_assoc.
    f_equal. rewrite filter_cons. by case_decide.
Qed.

Lemma start_times_file_spans (spans : list ReadableSpan) (self : TreeConsoleSpanExporter) (span : ReadableSpan) :
  span ∈ spans →
  is_Some (span_start_times (file_spans spans self) !! span_id (context span)).
Proof.
  revert self. induction spans as [|s spans IH] using rev_ind; intros self Hin.
  - by apply elem_of_nil in Hin.
  - unfold file_spans in *. rewrite foldl_app. simpl.
    apply elem_of_app in Hin as [Hin| ->%list_elem_of_singleton].
    + rewrite lookup_insert. case_decide; [by eexists|]. by apply IH.
    + rewrite lookup_insert_eq. by eexists.
Qed.

Lemma file_spans_app (earlier batch : list ReadableSpan) (self : TreeConsoleSpanExporter) :
  file_spans batch (file_spans earlier self) = file_spans (earlier ++ batch) self.
Proof. unfold file_spans. by rewrite foldl_app. Qed.

Lemma children_of_exported (spans : list ReadableSpan) (parent_id : option Z) :
  children (span_tree (file_spans spans TreeConsoleSpanExporter_init)) parent_id
  = filter (λ span, parent_id_of span = parent_id) spans.
Proof. rewrite children_file_spans. unfold children. simpl. by rewrite lookup_empty. Qed.

Lemma filed_exported (spans : list ReadableSpan) :
  filed (span_tree (file_spans spans TreeConsoleSpanExporter_init)).
Proof.
  intros parent_id span. rewrite children_of_exported.
  by intros [? _]%list_elem_of_filter.
Qed.

(** *** Parents are printed first *)

Lemma parents_first_nil (parent_id : option Z) (level : nat) : parents_first parent_id level [].
Proof. intros j lvl span Hj. by rewrite lookup_nil in Hj. Qed.

Lemma parents_first_node (parent_id : option Z) (level : nat) (span : ReadableSpan)
    (below after : list (nat * ReadableSpan)) :
  parent_id_of span = parent_id →
  parents_first (Some (span_id (context span))) (S level) below →
  parents_first parent_id level after →
  parents_first parent_id level ((level, span) :: below ++ after).
Proof.
  intros Hparent Hbelow Hafter j lvl s Hj.
  destruct j as [|j]; simpl in Hj.
  { injection Hj as <- <-. by left. }
  destruct (decide (j < length below)) as [Hlt|Hge].
  - rewrite lookup_app_l in Hj by done.
    destruct (Hbelow j lvl s Hj) as [[-> Hs]|(Hlvl & i & up & Hi & Hup & Hs)].
    + right. split; [lia|]. exists 0, span. simpl. split; [lia|]. done.
    + right. split; [lia|]. exists (S i), up. simpl.
      split; [lia|]. split; [|done]. rewrite lookup_app_l by lia. done.
  - rewrite lookup_app_r in Hj by lia.
    destruct (Hafter _ lvl s Hj) as [[-> Hs]|(Hlvl & i & up & Hi & Hup & Hs)].
    + by left.
    + right. split; [done|]. exists (S (length below + i)), up. simpl.
      split; [lia|]. split; [|done].
      rewrite lookup_app_r by lia. by replace (length below + i - length below) with i by lia.
Qed.

Lemma for_each_span_parents_first (parent_id : option Z) (level : nat)
    (recurse : ReadableSpan → list (nat * ReadableSpan) * Result unit) (spans : list ReadableSpan) :
  (∀ span, span ∈ spans → parent_id_of span = parent_id) →
  (∀ span, parents_first (Some (span_id (context span))) (S level) (recurse span).1) →
  parents_first parent_id level (for_each_span (pair level) recurse spans).1.
Proof.
  intros Hparent Hrec. induction spans as [|span spans IH]; simpl.
  - apply parents_first_nil.
  - specialize (Hrec span) as Hbelow.
    destruct (recurse span) as [below [[]|err]]; simpl in *.
    + specialize (IH (λ s Hs, Hparent s (list_elem_of_further _ _ _ Hs))).
      destruct (for_each_span (pair level) recurse spans) as [after r]; simpl in *.
      apply parents_first_node; [apply Hparent; by left|done..].
    + rewrite <- (app_nil_r below).
      apply parents_first_node; [apply Hparent; by left|done|apply parents_first_nil].
Qed.

(** Whatever the depth allowed, and whether or not the walk completes, what
    is printed has parents before children. *)
Lemma printed_spans_parents_first (depth : nat) (tree : gmap (option Z) (list ReadableSpan))
    (parent_id : option Z) (level : nat) :
  filed tree →
  parents_first parent_id level (printed_spans depth tree parent_id level).1.
Proof.
  intros Hfiled. revert parent_id level.
  induction depth as [|depth IH]; intros parent_id level; simpl.
  - apply parents_first_nil.
  - destruct (tree !! parent_id) as [spans|] eqn:Hspans; [|apply parents_first_nil].
    apply for_each_span_parents_first.
    + intros span Hin. apply Hfiled. unfold children. by rewrite Hspans.
    + intros span. apply IH.
Qed.

(** *** The walk completes when span ids are distinct *)

Lemma span_of_id_unique (all : list ReadableSpan) (s s' : ReadableSpan) :
  NoDup (span_ids all) → s ∈ all → s' ∈ all →
  span_id (context s) = span_id (context s') → s = s'.
Proof.
  unfold span_ids. induction all as [|x all IH]; intros Hnodup Hs Hs' Hid.
  - by apply elem_of_nil in Hs.
  - rewrite fmap_cons in Hnodup. apply NoDup_cons in Hnodup as [Hx Hnodup].
    apply elem_of_cons in Hs as [->|Hs]; apply elem_of_cons in Hs' as [->|Hs'].
    + done.
    + exfalso. apply Hx. rewrite Hid.
      by apply (list_elem_of_fmap_2 (λ span, span_id (context span))).
    + exfalso. apply Hx. rewrite <- Hid.
      by apply (list_elem_of_fmap_2 (λ span, span_id (context span))).
    + by apply IH.
Qed.

Lemma lineage_functional (all : list ReadableSpan) (key : option Z) (l1 l2 : list Z) :
  NoDup (span_ids all) → lineage all key l1 → lineage all key l2 → l1 = l2.
Proof.
  intros Hnodup Hl1. revert l2.
  induction Hl1 as [|s anc Hs _ IH]; intros l2 Hl2.
  - by inversion Hl2.
  - inversion Hl2 as [|s' anc' Hs' Hanc' Hid]; subst.
    assert (s' = s) as -> by by eapply span_of_id_unique.
    f_equal. by apply IH.
Qed.

Lemma lineage_split (all : list ReadableSpan) (key : option Z) (pre post : list Z)
    (span : ReadableSpan) :
  NoDup (span_ids all) → span ∈ all →
  lineage all key (pre ++ span_id (context span) :: post) →
  lineage all (parent_id_of span) post.
Proof.
  intros Hnodup Hspan. revert key.
  induction pre as [|a pre IH]; intros key Hl; simpl in Hl.
  - inversion Hl as [|s anc Hs Hanc Hkey [Hid Hpost]]; subst.
    by rewrite <- (span_of_id_unique all s span Hnodup Hs Hspan Hid).
  - inversion Hl as [|s anc Hs Hanc]; subst. by eapply IH.
Qed.

(** A child of the current key is not among the key's ancestors. *)
Lemma lineage_fresh (all : list ReadableSpan) (key : option Z) (ancestors : list Z)
    (span : ReadableSpan) :
  NoDup (span_ids all) → lineage all key ancestors →
  span ∈ all → parent_id_of span = key →
  span_id (context span) ∉ ancestors.
Proof.
  intros Hnodup Hl Hspan Hparent Hin.
  apply list_elem_of_split in Hin as (pre & post & ->).
  pose proof (lineage_split all key pre post span Hnodup Hspan Hl) as Hpost.
  rewrite Hparent in Hpost.
  pose proof (lineage_functional all key _ _ Hnodup Hl Hpost) as Heq.
  apply (f_equal length) in Heq. rewrite length_app in Heq. simpl in Heq. lia.
Qed.

Lemma lineage_bound (all : list ReadableSpan) (key : option Z) (ancestors : list Z) :
  NoDup (span_ids all) → lineage all key ancestors → (length ancestors ≤ length all)%nat.
Proof.
  intros Hnodup Hl.
  assert (NoDup ancestors ∧ ∀ a, a ∈ ancestors → a ∈ span_ids all) as [Hnd Hsub].
  { induction Hl as [|s anc Hs Hanc [IHnd IHsub]].
    - split; [constructor|]. by intros a ?%elem_of_nil.
    - split.
      + constructor; [|done]. by eapply lineage_fresh.
      + intros a [->|Ha]%elem_of_cons; [|by apply IHsub].
        by apply (list_elem_of_fmap_2 (λ span, span_id (context span))). }
  rewrite <- (length_fmap (λ span, span_id (context span)) all).
  by apply submseteq_length, NoDup_submseteq.
Qed.

Lemma for_each_span_all_ok {A : Type} (line : ReadableSpan → A)
    (recurse : ReadableSpan → list A * Result unit) (spans : list ReadableSpan) :
  (∀ span, span ∈ spans → (recurse span).2 = Ok tt) →
  for_each_span line recurse spans
  = (spans ≫= (λ span, line span :: (recurse span).1), Ok tt).
Proof.
  induction spans as [|span spans IH]; intros Hok; [done|].
  simpl. specialize (Hok span (list_elem_of_here _ _)) as Hspan.
  destruct (recurse span) as [out r]; simpl in *. subst r.
  rewrite IH by (intros s Hs; apply Hok; by right). done.
Qed.

Lemma for_each_span_ok_inv {A : Type} (line : ReadableSpan → A)
    (recurse : ReadableSpan → list A * Result unit) (spans : list ReadableSpan) :
  (for_each_span line recurse spans).2 = Ok tt →
  ∀ span, span ∈ spans → (recurse span).2 = Ok tt.
Proof.
  induction spans as [|s spans IH]; intros Hok span Hin.
  - by apply elem_of_nil in Hin.
  - simpl in Hok. destruct (recurse s) as [out [[]|err]] eqn:Hrec; [|done].
    destruct (for_each_span line recurse spans) as [out' r] eqn:Hrest. simpl in *.
    apply elem_of_cons in Hin as [->|Hin]; [by rewrite Hrec|by apply IH].
Qed.

(** With distinct span ids the recursion is no deeper than there are spans:
    the walk completes when more frames than that are allowed. *)
Lemma printed_spans_completes (all : list ReadableSpan) (tree : gmap (option Z) (list ReadableSpan))
    (depth : nat) (key : option Z) (ancestors : list Z) (level : nat) :
  NoDup (span_ids all) → filed tree →
  (∀ parent_id span, span ∈ children tree parent_id → span ∈ all) →
  lineage all key ancestors →
  length all < depth + length ancestors →
  (printed_spans depth tree key level).2 = Ok tt.
Proof.
  intros Hnodup Hfiled Hall. revert key ancestors level.
  induction depth as [|depth IH]; intros key anc level Hl Hdepth.
  - pose proof (lineage_bound all key anc Hnodup Hl). simpl in Hdepth. lia.
  - simpl. destruct (tree !! key) as [spans|] eqn:Hspans; [|done].
    rewrite for_each_span_all_ok; [done|].
    intros span Hin.
    assert (span ∈ children tree key) as Hchild by (unfold children; by rewrite Hspans).
    apply (IH _ (span_id (context span) :: anc)).
    + constructor; [by eapply Hall|]. by rewrite (Hfiled key span Hchild).
    + simpl. lia.
Qed.

(** *** Every span below a root is printed *)

Lemma printed_spans_covers (depth : nat) (tree : gmap (option Z) (list ReadableSpan))
    (key : option Z) (level : nat) :
  (printed_spans depth tree key level).2 = Ok tt →
  (∀ span, span ∈ children tree key → (level, span) ∈ (printed_spans depth tree key level).1)
  ∧ (∀ lvl up span,
       (lvl, up) ∈ (printed_spans depth tree key level).1 →
       span ∈ children tree (Some (span_id (context up))) →
       (S lvl, span) ∈ (printed_spans depth tree key level).1).
Proof.
  revert key level. induction depth as [|depth IH]; intros key level Hok; [done|].
  simpl in *. unfold children at 1.
  destruct (tree !! key) as [spans|] eqn:Hspans; simpl.
  - pose proof (for_each_span_ok_inv _ _ _ Hok) as Hsub.
    rewrite for_each_span_all_ok by done. simpl. split.
    + intros span Hin. apply list_elem_of_bind. exists span. split; [by left|done].
    + intros lvl up span [s [Hentry Hs]]%list_elem_of_bind Hchild.
      apply list_elem_of_bind. exists s. split; [|done]. right.
      destruct (IH _ _ (Hsub s Hs)) as [Hdirect Hclosed].
      apply elem_of_cons in Hentry as [[= -> ->]|Hentry].
      * by apply Hdirect.
      * by eapply Hclosed.
  - split; [by intros span ?%elem_of_nil|by intros lvl up span ?%elem_of_nil].
Qed.

(** *** Indentation *)

Lemma str_length_app (s1 s2 : string) :
  String.length (s1 +:+ s2) = String.length s1 + String.length s2.
Proof.
  induction s1 as [|a s1 IH]; [done|].
  change (String a s1 +:+ s2) with (String a (s1 +:+ s2)).
  simpl. by rewrite IH.
Qed.

Lemma str_mul_length (level : nat) : String.length (str_mul "  " level) = 2 * level.
Proof.
  induction level as [|level IH]; [done|].
  change (str_mul "  " (S level)) with ("  " +:+ str_mul "  " level).
  rewrite str_length_app, IH. simpl. lia.
Qed.

Lemma render_line_indent (level : nat) (span : ReadableSpan) :
  render_line level span = str_mul "  " level +:+ render_line 0 span.
Proof. done. Qed.

(** C7. Whatever was exported before, [export] files every span of the batch
    under the span id of its parent, under the null key when it has none, in
    arrival order, and the lines it prints are those of a walk from the null
    key: each line is indented by two spaces per level, a span without
    parent is at level 0, and every other printed span comes after a printed
    span one level up that is its parent. This holds of what is printed even
    when the interpreter's recursion limit cuts the walk short. When span ids
    are distinct and more frames are allowed than there are spans, the walk
    completes and prints every root and every child of a printed span. *)
Theorem export_files_and_prints_parents_first (earlier batch : list ReadableSpan) (depth : nat) :
  let self := file_spans earlier TreeConsoleSpanExporter_init in
  let all := earlier ++ batch in
  let self' := (export depth batch self).1 in
  let out := (export depth batch self).2 in
  let entries := (printed_spans depth (span_tree self') None 0).1 in
  (∀ parent_id,
     children (span_tree self') parent_id = filter (λ span, parent_id_of span = parent_id) all)
  ∧ (∀ span, span ∈ batch →
       span ∈ children (span_tree self')
                (match parent span with Some ctx => Some (span_id ctx) | None => None end))
  ∧ out.1 = (λ entry, str_mul "  " entry.1 +:+ render_line 0 entry.2) <$> entries
  ∧ (∀ level, String.length (str_mul "  " level) = 2 * level)
  ∧ (∀ j lvl span, entries !! j = Some (lvl, span) →
       (lvl = 0 ∧ parent span = None)
       ∨ (0 < lvl
          ∧ ∃ i up, i < j ∧ entries !! i = Some (pred lvl, up)
                    ∧ parent_id_of span = Some (span_id (context up))))
  ∧ (NoDup (span_ids all) → length all < depth →
       out.2 = Ok tt
       ∧ (∀ span, span ∈ all → parent span = None → (0, span) ∈ entries)
       ∧ (∀ lvl up span,
            (lvl, up) ∈ entries → span ∈ all →
            parent_id_of span = Some (span_id (context up)) →
            (S lvl, span) ∈ entries)).
Proof.
  intros self all self' out entries.
  assert (self' = file_spans all TreeConsoleSpanExporter_init) as Hself'.
  { unfold self', export, self, all. simpl. apply file_spans_app. }
  assert (∀ parent_id,
            children (span_tree self') parent_id
            = filter (λ span, parent_id_of span = parent_id) all) as Hfiling.
  { intros parent_id. rewrite Hself'. apply children_of_exported. }
  assert (filed (span_tree self')) as Hfiled.
  { rewrite Hself'. apply filed_exported. }
  assert (out = _print_tree depth (span_tree self') None 0) as Hout by done.
  split; [done|]. split; [|split; [|split; [|split]]].
  - intros span Hin. rewrite Hfiling. apply list_elem_of_filter.
    split; [done|]. unfold all. apply elem_of_app. by right.
  - by rewrite Hout, print_tree_lines.
  - apply str_mul_length.
  - intros j lvl span Hj.
    destruct (printed_spans_parents_first depth _ None 0 Hfiled j lvl span Hj)
      as [[-> Hroot]|(Hlvl & Hup)].
    + left. split; [done|]. unfold parent_id_of in Hroot. by destruct (parent span).
    + right. done.
  - intros Hnodup Hdepth.
    assert ((printed_spans depth (span_tree self') None 0).2 = Ok tt) as Hok.
    { apply (printed_spans_completes all _ depth None [] 0); try done.
      - intros parent_id span. rewrite Hfiling. by intros [_ ?]%list_elem_of_filter.
      - constructor.
      - simpl. lia. }
    destruct (printed_spans_covers depth _ None 0 Hok) as [Hroots Hclosed].
    split; [by rewrite Hout, print_tree_lines|]. split.
    + intros span Hin Hroot. apply Hroots. rewrite Hfiling.
      apply list_elem_of_filter. split; [|done]. unfold parent_id_of. by rewrite Hroot.
    + intros lvl up span Hup Hin Hparent. apply (Hclosed lvl up); [done|].
      rewrite Hfiling. apply list_elem_of_filter. done.
Qed.

Example export_example :
  (export 5 [root_span; child_span; other_span] TreeConsoleSpanExporter_init).2
  = ([ "- root " +:+ tab +:+ "trace_id: 7 span_id: 1";
       "  - child " +:+ tab +:+ "trace_id: 7 span_id: 2";
       "- other " +:+ tab +:+ "trace_id: 8 span_id: 3" ], Ok tt).
Proof. vm_compute. reflexivity. Qed.

(** A later batch prints the whole tree again, earlier spans included. *)
Example export_prints_earlier_spans :
  (export 5 [child_span] (file_spans [root_span] TreeConsoleSpanExporter_init)).2
  = ([ "- root " +:+ tab +:+ "trace_id: 7 span_id: 1";
       "  - child " +:+ tab +:+ "trace_id: 7 span_id: 2" ], Ok tt).
Proof. vm_compute. reflexivity. Qed.

Lemma example_span_ids_distinct : NoDup (span_ids ([root_span] ++ [child_span; other_span])).
Proof.
  apply (bool_decide_unpack _). vm_compute. exact I.
Defined.

Lemma export_files_and_prints_parents_first_witness :
  NoDup (span_ids ([root_span] ++ [child_span; other_span]))
  ∧ length ([root_span] ++ [child_span; other_span]) < 5
  ∧ (export 5 [child_span; other_span] (file_spans [root_span] TreeConsoleSpanExporter_init)).2.2
    = Ok tt
  ∧ (∀ span, span ∈ [root_span] ++ [child_span; other_span] → parent span = None →
       (0, span) ∈ (printed_spans 5
                      (span_tree (export 5 [child_span; other_span]
                                    (file_spans [root_span] TreeConsoleSpanExporter_init)).1)
                      None 0).1).
Proof.
  assert (length ([root_span] ++ [child_span; other_span]) < 5) as Hdepth by (simpl; lia).
  split; [exact example_span_ids_distinct|]. split; [exact Hdepth|].
  destruct (export_files_and_prints_parents_first [root_span] [child_span; other_span] 5)
    as (_ & _ & _ & _ & _ & Hcomplete).
  destruct (Hcomplete example_span_ids_distinct Hdepth) as (Hok & Hroots & _).
  split; [exact Hok|exact Hroots].
Defined.

(** With two spans of the same id, one the parent of the other, the tree has
    a cycle and the walk runs into the recursion limit, whatever the limit
    is. *)
Lemma cycle_tree_lookup :
  span_tree (file_spans [root_span; echo_span] TreeConsoleSpanExporter_init) !! Some 1%Z
  = Some [echo_span].
Proof. vm_compute. reflexivity. Qed.

Lemma cycle_tree_roots :
  span_tree (file_spans [root_span; echo_span] TreeConsoleSpanExporter_init) !! None
  = Some [root_span].
Proof. vm_compute. reflexivity. Qed.

Lemma print_tree_of_cycle (depth level : nat) :
  (_print_tree depth (span_tree (file_spans [root_span; echo_span] TreeConsoleSpanExporter_init))
     (Some 1%Z) level).2 = Raise RecursionError.
Proof.
  revert level. induction depth as [|depth IH]; intros level; [done|].
  cbn [_print_tree]. rewrite cycle_tree_lookup. cbn [for_each_span].
  change (span_id (context echo_span)) with 1%Z.
  specialize (IH (S level)).
  destruct (_print_tree depth _ (Some 1%Z) (S level)) as [out r]. simpl in IH. by subst r.
Qed.

Lemma export_of_cycle_overflows (depth : nat) :
  (export depth [root_span; echo_span] TreeConsoleSpanExporter_init).2.2 = Raise RecursionError.
Proof.
  unfold export. cbn [snd]. destruct depth as [|depth]; [done|].
  cbn [_print_tree]. rewrite cycle_tree_roots. cbn [for_each_span].
  change (span_id (context root_span)) with 1%Z.
  pose proof (print_tree_of_cycle depth 1) as Hbelow.
  destruct (_print_tree depth _ (Some 1%Z) 1) as [out r]. simpl in Hbelow. by subst r.
Qed.

End tree_exporter_facts.

(** ** MemoryTraceStore: further properties *)

Module store_facts.
Import tracer_manager exporters trace_store_facts.

Lemma select_run_id_app (run_id : string) (l1 l2 : list ReadableSpan) :
  select_run_id run_id (l1 ++ l2)
  = (let? a := select_run_id run_id l1 in
     let? b := select_run_id run_id l2 in
     Ok (a ++ b)).
Proof.
  induction l1 as [|span l1 IH]; simpl.
  - by destruct (select_run_id run_id l2).
  - destruct (attributes span !! "root_run_id") as [v|]; [|done].
    rewrite IH. destruct (select_run_id run_id l1) as [a|e]; simpl; [|done].
    destruct (select_run_id run_id l2) as [b|e]; simpl; [|done].
    by destruct (attr_eq_str v run_id).
Qed.

(** X1. [get_spans_from_run_id] after [add_spans] returns what it returned
    before followed by the spans of the run in the new batch, in order; it
    raises [KeyError] when it did before or when the batch holds a span
    without [root_run_id]. *)
Theorem get_after_add_spans (run_id : string) (batch : list ReadableSpan) (store : MemoryTraceStore) :
  get_spans_from_run_id run_id (add_spans batch store)
  = (let? old := get_spans_from_run_id run_id store in
     let? new := select_run_id run_id batch in
     Ok (old ++ new)).
Proof. unfold get_spans_from_run_id, add_spans. simpl. apply select_run_id_app. Qed.

Lemma of_run_functional (r r' : string) (span : ReadableSpan) :
  of_run r span → of_run r' span → r = r'.
Proof. unfold of_run. intros Hr Hr'. rewrite Hr in Hr'. by injection Hr'. Qed.

Lemma filter_other_run (r r' : string) (spans : list ReadableSpan) :
  r ≠ r' →
  filter (of_run r') (filter (λ span, ¬ of_run r span) spans) = filter (of_run r') spans.
Proof.
  intros Hne. induction spans as [|span spans IH]; [done|].
  destruct (decide (of_run r span)) as [Hr|Hr].
  - rewrite (filter_cons_False (λ span, ¬ of_run r span)) by tauto.
    rewrite (filter_cons_False (of_run r')); [done|].
    intros Hr'. apply Hne. by eapply of_run_functional.
  - rewrite (filter_cons_True (λ span, ¬ of_run r span)) by done.
    rewrite !filter_cons. by rewrite IH.
Qed.

Lemma filter_same_run (r r' : string) (spans : list ReadableSpan) :
  filter (of_run r') (filter (of_run r) spans)
  = if decide (r = r') then filter (of_run r) spans else [].
Proof.
  induction spans as [|span spans IH]; [by case_decide|].
  destruct (decide (of_run r span)) as [Hr|Hr].
  - rewrite (filter_cons_True (of_run r)) by done.
    case_decide as Heq.
    + subst. by rewrite filter_cons_True, IH.
    + rewrite filter_cons_False, IH; [done|].
      intros Hr'. apply Heq. by eapply of_run_functional.
  - by rewrite (filter_cons_False (of_run r)).
Qed.

Lemma has_root_run_id_filter (P : ReadableSpan → Prop) `{∀ x, Decision (P x)}
    (spans : list ReadableSpan) :
  Forall has_root_run_id spans → Forall has_root_run_id (filter P spans).
Proof.
  intros Hall. apply Forall_forall. intros span [_ Hin]%list_elem_of_filter.
  by eapply Forall_forall in Hall.
Qed.

(** X2. Popping one run leaves every other run as it was: for a different run
    id, [get_spans_from_run_id] returns after the pop what it returned
    before. *)
Theorem pop_leaves_other_runs (r r' : string) (store : MemoryTraceStore) :
  Forall has_root_run_id (_spans store) → r ≠ r' →
  get_spans_from_run_id r' (pop_spans_from_run_id r store).1
  = get_spans_from_run_id r' store.
Proof.
  intros Hall Hne. rewrite pop_spans_ok by done.
  unfold get_spans_from_run_id. simpl.
  rewrite !select_run_id_filter; [|done|by apply has_root_run_id_filter].
  by rewrite filter_other_run.
Qed.

Lemma filter_twice {A : Type} (P : A → Prop) `{∀ x, Decision (P x)} (l : list A) :
  filter P (filter P l) = filter P l.
Proof.
  induction l as [|x l IH]; [done|].
  rewrite (filter_cons P x l). case_decide; [|done].
  by rewrite filter_cons_True, IH.
Qed.

(** X3. A second pop of the same run returns the empty list and leaves the store
    as the first pop left it. *)
Theorem pop_twice (r : string) (store : MemoryTraceStore) :
  Forall has_root_run_id (_spans store) →
  pop_spans_from_run_id r (pop_spans_from_run_id r store).1
  = ((pop_spans_from_run_id r store).1, Ok []).
Proof.
  intros Hall. rewrite (pop_spans_ok r store) by done. simpl.
  rewrite pop_spans_ok by (by apply has_root_run_id_filter). simpl.
  by rewrite filter_of_run_rest, filter_twice.
Qed.

(** X4. The pop splits the store: the spans returned together with the spans
    left are the spans the store held, none lost and none doubled, and each
    part keeps its order. *)
Theorem pop_partitions_the_store (r : string) (store : MemoryTraceStore) :
  Forall has_root_run_id (_spans store) →
  ∃ store' popped,
    pop_spans_from_run_id r store = (store', Ok popped)
    ∧ popped ++ _spans store' ≡ₚ _spans store
    ∧ length popped + length (_spans store') = length (_spans store)
    ∧ popped `sublist_of` _spans store
    ∧ _spans store' `sublist_of` _spans store.
Proof.
  intros Hall. do 2 eexists. split; [by apply pop_spans_ok|]. simpl.
  pose proof (filter_app_complement (of_run r) (_spans store)) as Hperm.
  split; [done|]. split.
  - rewrite <- length_app. by rewrite Hperm.
  - split; apply sublist_filter.
Qed.

(** X5. Putting the popped spans back with [add_spans] restores every run: each
    [get_spans_from_run_id] returns what it returned before the pop. *)
Theorem pop_then_add_back (r r' : string) (store : MemoryTraceStore) :
  Forall has_root_run_id (_spans store) →
  ∃ store' popped,
    pop_spans_from_run_id r store = (store', Ok popped)
    ∧ get_spans_from_run_id r' (add_spans popped store')
      = get_spans_from_run_id r' store.
Proof.
  intros Hall. do 2 eexists. split; [by apply pop_spans_ok|].
  unfold get_spans_from_run_id, add_spans. simpl. rewrite select_run_id_app.
  rewrite !select_run_id_filter; [|done|by apply has_root_run_id_filter..].
  simpl. f_equal. rewrite filter_same_run.
  case_decide as Heq.
  - subst. by rewrite filter_of_run_rest.
  - by rewrite filter_other_run, app_nil_r.
Qed.

Lemma pop_spans_missing (r : string) (store : MemoryTraceStore) :
  Exists (λ span, attributes span !! "root_run_id" = None) (_spans store) →
  pop_spans_from_run_id r store = (store, Raise (KeyError "root_run_id")).
Proof.
  intros Hmiss. unfold pop_spans_from_run_id, get_spans_from_run_id.
  by rewrite select_run_id_missing.
Qed.

Lemma has_or_lacks (spans : list ReadableSpan) :
  Forall has_root_run_id spans
  ∨ Exists (λ span, attributes span !! "root_run_id" = None) spans.
Proof.
  induction spans as [|span spans [IH|IH]].
  - left. constructor.
  - destruct (attributes span !! "root_run_id") as [v|] eqn:Hv.
    + left. constructor; [by exists v|done].
    + right. by left.
  - right. by right.
Qed.

(** X6. Whatever the store holds, [pop_spans_from_run_id] either returns
    normally or raises [KeyError] and leaves the store untouched: the
    [ValueError] of [list.remove] never comes up, and no store is left half
    popped. *)
Theorem pop_never_half_done (r : string) (store : MemoryTraceStore) :
  (∃ popped,
     pop_spans_from_run_id r store
     = ({| _spans := filter (λ span, ¬ of_run r span) (_spans store) |}, Ok popped))
  ∨ pop_spans_from_run_id r store = (store, Raise (KeyError "root_run_id")).
Proof.
  destruct (has_or_lacks (_spans store)) as [Hall|Hmiss].
  - left. eexists. by apply pop_spans_ok.
  - right. by apply pop_spans_missing.
Qed.

Lemma store_after_keeps_bare (call : StoreCall) (store : MemoryTraceStore) :
  Exists (λ span, attributes span !! "root_run_id" = None) (_spans store) →
  Exists (λ span, attributes span !! "root_run_id" = None) (_spans (store_after store call)).
Proof.
  intros Hmiss. destruct call as [batch|r|r]; simpl.
  - apply Exists_app. by left.
  - done.
  - by rewrite pop_spans_missing.
Qed.

(** X7. Once a span without [root_run_id] is in the store, every
    [get_spans_from_run_id] and [pop_spans_from_run_id] raises [KeyError],
    for every run id and whatever spans are added or popped in between: no
    call but [clear] removes the span. After [clear] both return the empty
    list. *)
Theorem store_stays_unreadable (calls : list StoreCall) (r : string) (store : MemoryTraceStore) :
  Exists (λ span, attributes span !! "root_run_id" = None) (_spans store) →
  get_spans_from_run_id r (store_after_all calls store) = Raise (KeyError "root_run_id")
  ∧ pop_spans_from_run_id r (store_after_all calls store)
    = (store_after_all calls store, Raise (KeyError "root_run_id"))
  ∧ get_spans_from_run_id r (clear (store_after_all calls store)) = Ok []
  ∧ pop_spans_from_run_id r (clear (store_after_all calls store)) = (clear store, Ok []).
Proof.
  intros Hmiss.
  assert (Exists (λ span, attributes span !! "root_run_id" = None)
            (_spans (store_after_all calls store))) as Hstill.
  { revert store Hmiss. unfold store_after_all.
    induction calls as [|call calls IH]; intros store Hmiss; simpl; [done|].
    by apply IH, store_after_keeps_bare. }
  split; [by apply select_run_id_missing|]. split; [by apply pop_spans_missing|]. done.
Qed.

Lemma pop_leaves_other_runs_witness :
  get_spans_from_run_id "run-2"
    (pop_spans_from_run_id "run-1" {| _spans := [root_span; other_span; child_span] |}).1
  = get_spans_from_run_id "run-2" {| _spans := [root_span; other_span; child_span] |}.
Proof.
  apply (pop_leaves_other_runs "run-1" "run-2" {| _spans := [root_span; other_span; child_span] |}).
  - exact example_spans_have_root_run_id.
  - discriminate.
Defined.

Lemma pop_twice_witness :
  pop_spans_from_run_id "run-1"
    (pop_spans_from_run_id "run-1" {| _spans := [root_span; other_span; child_span] |}).1
  = ((pop_spans_from_run_id "run-1" {| _spans := [root_span; other_span; child_span] |}).1, Ok []).
Proof.
  apply (pop_twice "run-1" {| _spans := [root_span; other_span; child_span] |}).
  exact example_spans_have_root_run_id.
Defined.

Lemma pop_partitions_the_store_witness :
  ∃ store' popped,
    pop_spans_from_run_id "run-1" {| _spans := [root_span; other_span; child_span] |}
    = (store', Ok popped)
    ∧ popped ++ _spans store' ≡ₚ [root_span; other_span; child_span]
    ∧ length popped + length (_spans store') = 3
    ∧ popped `sublist_of` [root_span; other_span; child_span]
    ∧ _spans store' `sublist_of` [root_span; other_span; child_span].
Proof.
  apply (pop_partitions_the_store "run-1" {| _spans := [root_span; other_span; child_span] |}).
  exact example_spans_have_root_run_id.
Defined.

Lemma pop_then_add_back_witness :
  ∃ store' popped,
    pop_spans_from_run_id "run-1" {| _spans := [root_span; other_span; child_span] |}
    = (store', Ok popped)
    ∧ get_spans_from_run_id "run-2" (add_spans popped store')
      = get_spans_from_run_id "run-2" {| _spans := [root_span; other_span; child_span] |}.
Proof.
  apply (pop_then_add_back "run-1" "run-2" {| _spans := [root_span; other_span; child_span] |}).
  exact example_spans_have_root_run_id.
Defined.

Lemma store_stays_unreadable_witness :
  let store := {| _spans := [root_span; bare_span] |} in
  let calls := [CallPop "run-1"; CallAddSpans [child_span]; CallGet "run-2"] in
  get_spans_from_run_id "run-1" (store_after_all calls store) = Raise (KeyError "root_run_id")
  ∧ pop_spans_from_run_id "run-1" (store_after_all calls store)
    = (store_after_all calls store, Raise (KeyError "root_run_id"))
  ∧ get_spans_from_run_id "run-1" (clear (store_after_all calls store)) = Ok []
  ∧ pop_spans_from_run_id "run-1" (clear (store_after_all calls store)) = (clear store, Ok []).
Proof.
  apply (store_stays_unreadable
           [CallPop "run-1"; CallAddSpans [child_span]; CallGet "run-2"] "run-1"
           {| _spans := [root_span; bare_span] |}).
  apply Exists_cons_tl, Exists_cons_hd. vm_compute. reflexivity.
Defined.

End store_facts.

(** ** MemoryExporter and FileExporter *)

Module exporter_facts.
Import tracer_manager exporters.

Lemma str_app_assoc (a b c : string) : (a +:+ b) +:+ c = a +:+ b +:+ c.
Proof.
  induction a as [|x a IH]; [done|].
  change ((String x a +:+ b) +:+ c) with (String x ((a +:+ b) +:+ c)).
  change (String x a +:+ b +:+ c) with (String x (a +:+ b +:+ c)).
  by rewrite IH.
Qed.

Lemma str_app_nil_r (a : string) : a +:+ "" = a.
Proof.
  induction a as [|x a IH]; [done|].
  change (String x a +:+ "") with (String x (a +:+ "")). by rewrite IH.
Qed.

Section exporter_facts.

Context {Json : Type}.
Variable str_spans : list ReadableSpan → string.
Variable to_json : ReadableSpan → string.
Variable json_loads : string → Json.

(** *** MemoryExporter *)

Lemma memory_exporter_after_all (calls : list MemoryExporterCall) (self : MemoryExporter) (g : Globals) :
  (foldl (memory_exporter_after str_spans) (self, g) calls).1 = self
  ∧ _spans (trace_store (foldl (memory_exporter_after str_spans) (self, g) calls).2)
    = _spans (trace_store g) ++ exported calls.
Proof.
  revert g. induction calls as [|call calls IH]; intros g.
  - simpl. by rewrite app_nil_r.
  - cbn [foldl]. destruct call as [spans|t]; simpl.
    + destruct (IH {| stdout := stdout g ++ ["exporting " +:+ str_spans spans];
                      trace_store := add_spans spans (trace_store g) |}) as [-> ->].
      split; [done|]. simpl. unfold exported. simpl. by rewrite app_assoc.
    + destruct (IH g) as [-> ->]. done.
Qed.

(** X8. A [MemoryExporter] keeps nothing on itself: after any sequence of
    [export] and [force_flush] calls on a new instance, [spans()] raises
    [AttributeError], since no method sets the attribute [_spans] it reads;
    the exported spans are in the module's [trace_store], after those it held
    and in the order of export. *)
Theorem memory_exporter_spans_raises (calls : list MemoryExporterCall) (g : Globals) :
  let state := foldl (memory_exporter_after str_spans) (MemoryExporter_new, g) calls in
  MemoryExporter_spans to_json json_loads state.1
  = AttributeError "'MemoryExporter' object has no attribute '_spans'"
  ∧ _spans (trace_store state.2) = _spans (trace_store g) ++ exported calls.
Proof.
  intros state. destruct (memory_exporter_after_all calls MemoryExporter_new g) as [Hself Hstore].
  split; [|done]. unfold state. by rewrite Hself.
Qed.

(** *** FileExporter *)

Lemma json_lines_app (a b : list ReadableSpan) :
  json_lines to_json (a ++ b) = json_lines to_json a +:+ json_lines to_json b.
Proof.
  induction a as [|span a IH]; [done|].
  simpl. rewrite IH. by rewrite !str_app_assoc.
Qed.

Lemma write_lines_open (spans : list ReadableSpan) (f : TextFile) :
  closed f = false →
  write_lines (to_json <$> spans) f
  = ({| on_disk := on_disk f; buffered := buffered f +:+ json_lines to_json spans;
        closed := false |}, Ok tt).
Proof.
  revert f. induction spans as [|span spans IH]; intros f Hopen.
  - simpl. rewrite str_app_nil_r. destruct f; simpl in *; by subst.
  - rewrite fmap_cons. cbn [write_lines]. unfold file_write. rewrite Hopen.
    rewrite IH by done. simpl. by rewrite !str_app_assoc.
Qed.

Lemma export_open (spans : list ReadableSpan) (self : FileExporter) :
  closed (file self) = false →
  FileExporter_export to_json spans self
  = ({| file_name := file_name self;
        file := {| on_disk := on_disk (file self) +:+ buffered (file self)
                                +:+ json_lines to_json spans;
                   buffered := ""; closed := false |} |}, Ok SUCCESS).
Proof.
  intros Hopen. unfold FileExporter_export.
  rewrite write_lines_open by done. unfold file_flush. simpl. done.
Qed.

(** X9. Exporting batches one after the other to a new [FileExporter] succeeds
    each time, leaves nothing in the buffer, and leaves in the file what it
    held when opened followed by the JSON text of every span, each followed by
    a newline, in order: the file is only ever appended to, and how the spans
    are split into batches makes no difference. *)
Theorem file_exporter_appends (name existing : string) (batches : list (list ReadableSpan)) :
  let self := foldl (λ self batch, (FileExporter_export to_json batch self).1)
                    (FileExporter_init name existing) batches in
  file self = {| on_disk := existing +:+ json_lines to_json (concat batches);
                 buffered := ""; closed := false |}
  ∧ file_name self = name
  ∧ ∀ batch, FileExporter_export to_json batch self
             = ({| file_name := name;
                   file := {| on_disk := existing +:+ json_lines to_json (concat batches)
                                           +:+ json_lines to_json batch;
                              buffered := ""; closed := false |} |}, Ok SUCCESS).
Proof.
  intros self.
  assert (file self = {| on_disk := existing +:+ json_lines to_json (concat batches);
                         buffered := ""; closed := false |}
          ∧ file_name self = name) as [Hfile Hname].
  { unfold self. clear self.
    induction batches as [|batch batches IH] using rev_ind.
    - simpl. by rewrite str_app_nil_r.
    - rewrite foldl_app. cbn [foldl].
      destruct IH as [IHfile IHname].
      rewrite export_open by (by rewrite IHfile). simpl.
      rewrite IHfile, IHname. simpl. split; [|done].
      by rewrite concat_app, json_lines_app, str_app_assoc; simpl; rewrite app_nil_r. }
  split; [done|]. split; [done|].
  intros batch. rewrite export_open by (by rewrite Hfile).
  rewrite Hfile, Hname. simpl. by rewrite !str_app_assoc.
Qed.

Lemma export_closed (spans : list ReadableSpan) (self : FileExporter) :
  closed (file self) = true →
  FileExporter_export to_json spans self = (self, Raise closed_file_error).
Proof.
  intros Hclosed. unfold FileExporter_export.
  destruct spans as [|span spans]; simpl.
  - unfold file_flush. rewrite Hclosed. by destruct self.
  - unfold file_write. rewrite Hclosed. by destruct self.
Qed.

(** X10. After [shutdown], [export] raises [ValueError] for every batch, the empty
    one included (then it is the flush that raises), and the file is as
    [shutdown] left it: everything written before is in it. A second
    [shutdown] changes nothing. *)
Theorem file_exporter_after_shutdown (spans : list ReadableSpan) (self : FileExporter) :
  let down := FileExporter_shutdown self in
  FileExporter_export to_json spans down = (down, Raise closed_file_error)
  ∧ FileExporter_shutdown down = down
  ∧ (closed (file self) = false →
     on_disk (file down) = on_disk (file self) +:+ buffered (file self)
     ∧ buffered (file down) = "").
Proof.
  intros down.
  assert (closed (file down) = true) as Hclosed.
  { unfold down, FileExporter_shutdown, file_close. simpl.
    by destruct (closed (file self)) eqn:Hc. }
  split; [|split].
  - by apply export_closed.
  - clearbody down. unfold FileExporter_shutdown, file_close. rewrite Hclosed. by destruct down.
  - intros Hopen. unfold down, FileExporter_shutdown, file_close. simpl. by rewrite Hopen.
Qed.

End exporter_facts.

Example file_exporter_two_batches :
  on_disk (file (foldl (λ self batch, (FileExporter_export name batch self).1)
                   (FileExporter_init "traces.json" "old;") [[root_span]; [child_span; other_span]]))
  = "old;root" +:+ String (Ascii.ascii_of_nat 10) ""
    +:+ "child" +:+ String (Ascii.ascii_of_nat 10) ""
    +:+ "other" +:+ String (Ascii.ascii_of_nat 10) "".
Proof. vm_compute. reflexivity. Qed.

Lemma file_exporter_after_shutdown_witness :
  let self := (FileExporter_export name [root_span] (FileExporter_init "traces.json" "")).1 in
  let down := FileExporter_shutdown self in
  FileExporter_export name [child_span] down = (down, Raise closed_file_error)
  ∧ FileExporter_export name [] down = (down, Raise closed_file_error)
  ∧ on_disk (file down) = on_disk (file self) +:+ buffered (file self)
  ∧ buffered (file down) = "".
Proof.
  intros self down.
  destruct (file_exporter_after_shutdown name [child_span] self) as (Hexport & _ & Hflushed).
  destruct (file_exporter_after_shutdown name [] self) as (Hempty & _ & _).
  split; [exact Hexport|]. split; [exact Hempty|].
  apply Hflushed. reflexivity.
Defined.

End exporter_facts.

(** ** TreeConsoleSpanExporter: what is printed, and how often *)

Module tree_walk_facts.
Import tracer_manager tree_exporter_facts.

Lemma for_each_span_elem {A : Type} (line : ReadableSpan → A)
    (recurse : ReadableSpan → list A * Result unit) (spans : list ReadableSpan) (x : A) :
  x ∈ (for_each_span line recurse spans).1 →
  ∃ span, span ∈ spans ∧ (x = line span ∨ x ∈ (recurse span).1).
Proof.
  induction spans as [|s spans IH]; simpl.
  - by intros ?%elem_of_nil.
  - destruct (recurse s) as [out [[]|err]] eqn:Hrec.
    + destruct (for_each_span line recurse spans) as [out' r]. simpl in *.
      intros [->|[Hin|Hin]%elem_of_app]%elem_of_cons.
      * exists s. split; [by left|by left].
      * exists s. split; [by left|]. right. by rewrite Hrec.
      * destruct (IH Hin) as (span & Hspan & Hx). exists span. split; [by right|done].
    + simpl. intros [->|Hin]%elem_of_cons.
      * exists s. split; [by left|by left].
      * exists s. split; [by left|]. right. by rewrite Hrec.
Qed.

(** What the loop has printed when it ends, normally or not, is what it
    prints for the first so many spans. *)
Lemma for_each_span_taken {A : Type} (line : ReadableSpan → A)
    (recurse : ReadableSpan → list A * Result unit) (spans : list ReadableSpan) :
  ∃ k, (for_each_span line recurse spans).1
       = take k spans ≫= (λ span, line span :: (recurse span).1).
Proof.
  induction spans as [|s spans [k IH]]; simpl.
  - by exists 0.
  - destruct (recurse s) as [out [[]|err]] eqn:Hrec.
    + destruct (for_each_span line recurse spans) as [out' r]. simpl in *.
      exists (S k). simpl. rewrite Hrec. simpl. by rewrite IH.
    + exists 1. simpl. rewrite Hrec. simpl. by rewrite app_nil_r.
Qed.

Section walk.

Variable all : list ReadableSpan.
Variable tree : gmap (option Z) (list ReadableSpan).
Hypothesis tree_filed : filed tree.
Hypothesis tree_of_all : ∀ parent_id span, span ∈ children tree parent_id → span ∈ all.

(** A span printed in the walk below a key, at some level, is an exported
    span that has that many ancestors, the last of them those of the key. *)
Lemma printed_spans_lineage (depth : nat) (key : option Z) (ancestors : list Z)
    (lvl : nat) (span : ReadableSpan) :
  lineage all key ancestors →
  (lvl, span) ∈ (printed_spans depth tree key (length ancestors)).1 →
  span ∈ all
  ∧ ∃ front, lineage all (parent_id_of span) (front ++ ancestors)
             ∧ length (front ++ ancestors) = lvl.
Proof.
  revert key ancestors. induction depth as [|depth IH]; intros key anc Hl Hin; simpl in Hin.
  - by apply elem_of_nil in Hin.
  - destruct (tree !! key) as [spans|] eqn:Hspans; [|by apply elem_of_nil in Hin].
    apply for_each_span_elem in Hin as (s & Hs & [[= -> ->]|Hbelow]).
    + assert (s ∈ children tree key) as Hchild by (unfold children; by rewrite Hspans).
      split; [by eapply tree_of_all|]. exists []. simpl.
      by rewrite (tree_filed key s Hchild).
    + assert (s ∈ children tree key) as Hchild by (unfold children; by rewrite Hspans).
      destruct (IH (Some (span_id (context s))) (span_id (context s) :: anc)) as (Hall & front & Hfront & Hlen).
      * constructor; [by eapply tree_of_all|]. by rewrite (tree_filed key s Hchild).
      * exact Hbelow.
      * split; [done|]. exists (front ++ [span_id (context s)]).
        rewrite <- app_assoc. done.
Qed.

Hypothesis ids_distinct : NoDup (span_ids all).
Hypothesis children_distinct : ∀ parent_id, NoDup (children tree parent_id).

Lemma printed_spans_NoDup (depth : nat) (key : option Z) (ancestors : list Z) :
  lineage all key ancestors →
  NoDup (printed_spans depth tree key (length ancestors)).1.
Proof.
  revert key ancestors. induction depth as [|depth IH]; intros key anc Hl; simpl.
  - constructor.
  - destruct (tree !! key) as [spans|] eqn:Hspans; [|constructor].
    assert (∀ s, s ∈ spans → s ∈ children tree key) as Hchild.
    { intros s Hs. unfold children. by rewrite Hspans. }
    assert (∀ s, s ∈ spans →
              lineage all (Some (span_id (context s))) (span_id (context s) :: anc)) as Hlin.
    { intros s Hs. constructor; [by eapply tree_of_all, Hchild|].
      by rewrite (tree_filed key s (Hchild s Hs)). }
    destruct (for_each_span_taken (pair (length anc))
                (λ span, printed_spans depth tree (Some (span_id (context span))) (S (length anc)))
                spans) as [k ->].
    assert (∀ s, s ∈ take k spans → s ∈ spans) as Htake.
    { intros s Hs. by apply (subseteq_take k spans). }
    apply NoDup_bind.
    + intros s1 s2 [lvl x] Hs1%Htake Hs2%Htake Hy1 Hy2.
      apply elem_of_cons in Hy1 as [[= -> ->]|Hy1]; apply elem_of_cons in Hy2 as [[= Heq]|Hy2].
      * done.
      * destruct (printed_spans_lineage depth _ (span_id (context s2) :: anc) _ _ (Hlin s2 Hs2) Hy2)
          as (_ & front & _ & Hlen).
        rewrite length_app in Hlen. simpl in Hlen. lia.
      * subst. destruct (printed_spans_lineage depth _ (span_id (context s1) :: anc) _ _ (Hlin s1 Hs1) Hy1)
          as (_ & front & _ & Hlen).
        rewrite length_app in Hlen. simpl in Hlen. lia.
      * destruct (printed_spans_lineage depth _ (span_id (context s1) :: anc) _ _ (Hlin s1 Hs1) Hy1)
          as (_ & front1 & Hfront1 & Hlen1).
        destruct (printed_spans_lineage depth _ (span_id (context s2) :: anc) _ _ (Hlin s2 Hs2) Hy2)
          as (_ & front2 & Hfront2 & Hlen2).
        pose proof (lineage_functional all _ _ _ ids_distinct Hfront1 Hfront2) as Heq.
        apply app_inj_2 in Heq as [_ [= Hid]]; [|done].
        apply (span_of_id_unique all); [done| | |done]; by eapply tree_of_all, Hchild.
    + intros s Hs%Htake. constructor.
      * intros Hin.
        destruct (printed_spans_lineage depth _ (span_id (context s) :: anc) _ _ (Hlin s Hs) Hin)
          as (_ & front & _ & Hlen).
        rewrite length_app in Hlen. simpl in Hlen. lia.
      * apply (IH _ (span_id (context s) :: anc)). by apply Hlin.
    + eapply sublist_NoDup; [|apply sublist_take].
      pose proof (children_distinct key) as Hnd. unfold children in Hnd.
      by rewrite Hspans in Hnd.
Qed.

End walk.

Lemma exported_children_in (all : list ReadableSpan) (parent_id : option Z) (span : ReadableSpan) :
  span ∈ children (span_tree (file_spans all TreeConsoleSpanExporter_init)) parent_id →
  span ∈ all.
Proof. rewrite children_of_exported. by intros [_ ?]%list_elem_of_filter. Qed.

Lemma exported_children_distinct (all : list ReadableSpan) (parent_id : option Z) :
  NoDup (span_ids all) →
  NoDup (children (span_tree (file_spans all TreeConsoleSpanExporter_init)) parent_id).
Proof.
  intros Hnodup. rewrite children_of_exported.
  apply NoDup_filter. by eapply NoDup_fmap_1.
Qed.

Lemma export_tree (earlier batch : list ReadableSpan) (depth : nat) :
  span_tree (export depth batch (file_spans earlier TreeConsoleSpanExporter_init)).1
  = span_tree (file_spans (earlier ++ batch) TreeConsoleSpanExporter_init).
Proof. unfold export. simpl. by rewrite file_spans_app. Qed.

Lemma exported_printed_lineage (earlier batch : list ReadableSpan) (depth lvl : nat)
    (span : ReadableSpan) :
  (lvl, span) ∈ (printed_spans depth
                   (span_tree (export depth batch
                                 (file_spans earlier TreeConsoleSpanExporter_init)).1) None 0).1 →
  span ∈ earlier ++ batch
  ∧ ∃ ancestors, lineage (earlier ++ batch) (parent_id_of span) ancestors
                 ∧ length ancestors = lvl.
Proof.
  intros Hin. rewrite export_tree in Hin.
  destruct (printed_spans_lineage (earlier ++ batch) _ (filed_exported _)
              (exported_children_in _) depth None [] lvl span (lineage_root _) Hin)
    as (Hall & front & Hfront & Hlen).
  rewrite app_nil_r in Hfront, Hlen. eauto.
Qed.

(** X11. A printed span has all its ancestors exported, up to a root, and is
    printed at the level that is their number. So a span whose parent was
    not exported is not printed, nor is anything below it, whatever the
    recursion limit. *)
Theorem printed_spans_have_ancestors (earlier batch : list ReadableSpan) (depth : nat) :
  let all := earlier ++ batch in
  let self' := (export depth batch (file_spans earlier TreeConsoleSpanExporter_init)).1 in
  let entries := (printed_spans depth (span_tree self') None 0).1 in
  (∀ lvl span, (lvl, span) ∈ entries →
     span ∈ all
     ∧ ∃ ancestors, lineage all (parent_id_of span) ancestors ∧ length ancestors = lvl)
  ∧ (∀ lvl span ctx, parent span = Some ctx → span_id ctx ∉ span_ids all →
       (lvl, span) ∉ entries).
Proof.
  intros all self' entries.
  assert (∀ lvl span, (lvl, span) ∈ entries →
            span ∈ all
            ∧ ∃ ancestors, lineage all (parent_id_of span) ancestors ∧ length ancestors = lvl)
    as Hlineage.
  { intros lvl span Hin. by apply (exported_printed_lineage earlier batch depth). }
  split; [done|].
  intros lvl span ctx Hparent Hnotin Hin.
  destruct (Hlineage lvl span Hin) as (_ & anc & Hanc & _).
  unfold parent_id_of in Hanc. rewrite Hparent in Hanc.
  inversion Hanc as [|up rest Hup _ Hid]; subst.
  apply Hnotin. rewrite <- Hid.
  by apply (list_elem_of_fmap_2 (λ span, span_id (context span))).
Qed.

Lemma lineage_printed (all : list ReadableSpan) (depth : nat) (key : option Z) (ancestors : list Z) :
  let tree := span_tree (file_spans all TreeConsoleSpanExporter_init) in
  (printed_spans depth tree None 0).2 = Ok tt →
  lineage all key ancestors →
  ∀ span, span ∈ all → parent_id_of span = key →
  (length ancestors, span) ∈ (printed_spans depth tree None 0).1.
Proof.
  intros tree Hok Hl.
  destruct (printed_spans_covers depth tree None 0 Hok) as [Hroots Hclosed].
  induction Hl as [|up anc Hup Hanc IH]; intros span Hspan Hparent.
  - apply Hroots. unfold tree. rewrite children_of_exported.
    by apply list_elem_of_filter.
  - simpl. apply (Hclosed (length anc) up).
    + by apply IH.
    + unfold tree. rewrite children_of_exported. by apply list_elem_of_filter.
Qed.

(** X12. With distinct span ids and a recursion limit above the number of spans,
    the printed spans are exactly the exported spans whose ancestors were all
    exported, each at the level that is the number of its ancestors: a span
    is missing from the output only if its chain of parents does not reach a
    root. *)
Theorem printed_iff_ancestors_exported (earlier batch : list ReadableSpan) (depth : nat)
    (lvl : nat) (span : ReadableSpan) :
  let all := earlier ++ batch in
  let self' := (export depth batch (file_spans earlier TreeConsoleSpanExporter_init)).1 in
  let entries := (printed_spans depth (span_tree self') None 0).1 in
  NoDup (span_ids all) → length all < depth →
  (lvl, span) ∈ entries
  ↔ span ∈ all ∧ ∃ ancestors, lineage all (parent_id_of span) ancestors ∧ length ancestors = lvl.
Proof.
  intros all self' entries Hnodup Hdepth. split.
  - apply (exported_printed_lineage earlier batch depth).
  - intros (Hspan & anc & Hanc & <-).
    unfold entries, self'. rewrite export_tree.
    apply (lineage_printed all depth (parent_id_of span) anc); [|done..].
    apply (printed_spans_completes all _ depth None [] 0); try done.
    + apply filed_exported.
    + apply exported_children_in.
    + constructor.
    + simpl. fold all. lia.
Qed.

(** X13. With distinct span ids no span is printed twice, at whatever levels and
    whatever the recursion limit: [export] prints at most as many lines as
    spans were exported. *)
Theorem printed_at_most_once (earlier batch : list ReadableSpan) (depth : nat) :
  let all := earlier ++ batch in
  let state := export depth batch (file_spans earlier TreeConsoleSpanExporter_init) in
  let entries := (printed_spans depth (span_tree state.1) None 0).1 in
  NoDup (span_ids all) →
  NoDup (snd <$> entries)
  ∧ length state.2.1 = length entries
  ∧ (length state.2.1 ≤ length all)%nat.
Proof.
  intros all state entries Hnodup.
  assert (entries = (printed_spans depth (span_tree (file_spans all TreeConsoleSpanExporter_init))
                       None (length (@nil Z))).1) as Hentries.
  { unfold entries, state. by rewrite export_tree. }
  assert (NoDup entries) as Hnd.
  { rewrite Hentries.
    apply (printed_spans_NoDup all _ (filed_exported all) (exported_children_in all) Hnodup);
      [|constructor].
    intros parent_id. by apply exported_children_distinct. }
  assert (∀ lvl span, (lvl, span) ∈ entries →
            span ∈ all
            ∧ ∃ ancestors, lineage all (parent_id_of span) ancestors ∧ length ancestors = lvl)
    as Hlineage by apply (exported_printed_lineage earlier batch depth).
  assert (NoDup (snd <$> entries)) as Hspans.
  { apply NoDup_fmap_2_strong; [|done].
    intros [lvl1 s1] [lvl2 s2] Hin1 Hin2 Heq. simpl in Heq. subst s2.
    destruct (Hlineage _ _ Hin1) as (_ & anc1 & Hanc1 & <-).
    destruct (Hlineage _ _ Hin2) as (_ & anc2 & Hanc2 & <-).
    by rewrite (lineage_functional all _ _ _ Hnodup Hanc1 Hanc2). }
  assert (length state.2.1 = length entries) as Hlines.
  { unfold state, export. cbn [snd fst]. rewrite print_tree_lines. simpl.
    rewrite length_fmap. unfold entries, state, export. done. }
  split; [done|]. split; [done|].
  rewrite Hlines, <- (length_fmap snd entries).
  apply submseteq_length, NoDup_submseteq; [done|].
  intros span [[lvl s] [-> Hin]]%list_elem_of_fmap. simpl.
  by destruct (Hlineage _ _ Hin).
Qed.

(** X14. [span_start_times] holds, for every span id exported so far, the start
    time of the span exported last under that id, and the ids of spans not
    exported in the batch keep what they had. *)
Theorem start_times_of_last_export (spans : list ReadableSpan) (self : TreeConsoleSpanExporter) (id : Z) :
  span_start_times (file_spans spans self) !! id
  = match last (filter (λ span, span_id (context span) = id) spans) with
    | Some span => Some (start_time span)
    | None => span_start_times self !! id
    end.
Proof.
  revert self. induction spans as [|s spans IH]; intros self; [done|].
  unfold file_spans in *. cbn [foldl]. rewrite IH. rewrite filter_cons.
  case_decide as Hid.
  - rewrite last_cons.
    destruct (last (filter (λ span, span_id (context span) = id) spans)); [done|].
    simpl. rewrite Hid. by rewrite lookup_insert_eq.
  - destruct (last (filter (λ span, span_id (context span) = id) spans)); [done|].
    simpl. by rewrite lookup_insert_ne.
Qed.

Lemma printed_iff_ancestors_exported_witness :
  (1, child_span)
    ∈ (printed_spans 5
         (span_tree (export 5 [child_span; other_span]
                       (file_spans [root_span] TreeConsoleSpanExporter_init)).1) None 0).1
  ↔ child_span ∈ [root_span] ++ [child_span; other_span]
    ∧ ∃ ancestors, lineage ([root_span] ++ [child_span; other_span])
                     (parent_id_of child_span) ancestors
                   ∧ length ancestors = 1.
Proof.
  apply (printed_iff_ancestors_exported [root_span] [child_span; other_span] 5 1 child_span).
  - exact example_span_ids_distinct.
  - simpl. lia.
Defined.

Lemma printed_at_most_once_witness :
  let state := export 5 [child_span; other_span]
                 (file_spans [root_span] TreeConsoleSpanExporter_init) in
  let entries := (printed_spans 5 (span_tree state.1) None 0).1 in
  NoDup (snd <$> entries)
  ∧ length state.2.1 = length entries
  ∧ (length state.2.1 ≤ length ([root_span] ++ [child_span; other_span]))%nat.
Proof.
  apply (printed_at_most_once [root_span] [child_span; other_span] 5).
  exact example_span_ids_distinct.
Defined.

(** A child exported before its parent is not printed until the parent
    comes. *)
Example child_waits_for_parent :
  (export 5 [child_span] TreeConsoleSpanExporter_init).2 = ([], Ok tt)
  ∧ (export 5 [root_span] (file_spans [child_span] TreeConsoleSpanExporter_init)).2
    = ([ "- root " +:+ tab +:+ "trace_id: 7 span_id: 1";
         "  - child " +:+ tab +:+ "trace_id: 7 span_id: 2" ], Ok tt).
Proof. split; vm_compute; reflexivity. Qed.

End tree_walk_facts.

(** ** The fixtures of conftest.py *)

Module conftest_facts.
Import conftest.

Lemma binding_override (env : TestEnv) (name : string) :
  binding (override_recording_file env) name = binding env name.
Proof. unfold override_recording_file. by destruct (_ || _). Qed.

Lemma binding_rebind (env : TestEnv) (target name : string) (value : ToolDecorator) :
  binding (rebind target value env) name
  = if decide (target = name) then value else binding env name.
Proof. unfold binding, rebind. simpl. rewrite lookup_insert. by case_decide. Qed.

(** What [setup_recording] returns in recording or replaying mode: the three
    names rebound in turn, and the three started patchers. *)
Lemma setup_recording_in_mode (env : TestEnv) :
  is_replaying_mode env || is_recording_mode env = true →
  let env0 := override_recording_file env in
  let mocked := mock_tool (binding env "promptflow._core.tool.tool") in
  setup_recording env
  = (rebind "promptflow.tool" mocked
       (rebind "promptflow._internal.tool" mocked
          (rebind "promptflow._core.tool.tool" mocked env0)),
     [ {| target := "promptflow._core.tool.tool"; new := mocked;
          temp_original := Some (binding env "promptflow._core.tool.tool") |};
       {| target := "promptflow._internal.tool"; new := mocked;
          temp_original := Some (binding env "promptflow._internal.tool") |};
       {| target := "promptflow.tool"; new := mocked;
          temp_original := Some (binding env "promptflow.tool") |} ]).
Proof.
  intros Hmode env0 mocked. unfold setup_recording. fold env0.
  assert (is_replaying_mode env0 || is_recording_mode env0 = true) as ->.
  { unfold env0, override_recording_file. by rewrite Hmode. }
  unfold patch_targets. cbn [foldl]. unfold patcher_start, patch. cbn [target new].
  rewrite !binding_rebind. simpl.
  unfold env0. rewrite !binding_override. done.
Qed.

(** X15. In recording or replaying mode [setup_recording] binds the three names of
    the [tool] decorator to one mocked decorator, wrapped around what
    [promptflow._core.tool.tool] was bound to, opens the record store on the
    recordings file and leaves every other name alone; in neither mode it
    changes nothing and returns no patcher. *)
Theorem setup_recording_rebinds (env : TestEnv) (name : string) :
  if is_replaying_mode env || is_recording_mode env then
    binding (setup_recording env).1 name
    = (if bool_decide (name ∈ patch_targets)
       then mock_tool (binding env "promptflow._core.tool.tool")
       else binding env name)
    ∧ storage_file (setup_recording env).1
      = Some (RECORDINGS_TEST_CONFIGS_ROOT +:+ "/executor_node_cache.shelve")
    ∧ target <$> (setup_recording env).2 = patch_targets
  else setup_recording env = (env, []).
Proof.
  destruct (is_replaying_mode env || is_recording_mode env) eqn:Hmode.
  - rewrite (setup_recording_in_mode env Hmode). cbn [fst snd].
    split; [|split].
    + rewrite !binding_rebind, binding_override. unfold patch_targets.
      case_bool_decide as Hin.
      * repeat (apply elem_of_cons in Hin as [->|Hin]; [by repeat case_decide|]).
        by apply elem_of_nil in Hin.
      * repeat case_decide; try done; subst; exfalso; apply Hin; repeat constructor.
    + simpl. unfold override_recording_file. by rewrite Hmode.
    + done.
  - unfold setup_recording, override_recording_file. rewrite Hmode. simpl.
    by rewrite Hmode.
Qed.

(** X16. The fixture [recording_setup] undoes its patches: after its [finally]
    block every name is bound to what it was bound to before the setup. The
    record store stays open on the recordings file. *)
Theorem recording_setup_restores (env : TestEnv) (name : string) :
  let env' := recording_setup_finally (setup_recording env).2 (setup_recording env).1 in
  binding env' name = binding env name
  ∧ is_replaying_mode env' = is_replaying_mode env
  ∧ is_recording_mode env' = is_recording_mode env
  ∧ storage_file env' = storage_file (override_recording_file env).
Proof.
  destruct (is_replaying_mode env || is_recording_mode env) eqn:Hmode.
  - rewrite (setup_recording_in_mode env Hmode). cbn [fst snd].
    unfold recording_setup_finally. cbn [foldl]. unfold patcher_stop. cbn [temp_original target].
    split; [|split; [|split]].
    + rewrite !binding_rebind, binding_override.
      repeat case_decide; by subst.
    + simpl. unfold override_recording_file. by rewrite Hmode.
    + simpl. unfold override_recording_file. by rewrite Hmode.
    + done.
  - unfold setup_recording, override_recording_file. rewrite Hmode. simpl.
    by rewrite Hmode.
Qed.

Lemma get_context_Process_set (m method : string) (c : ProcessClass) (mp : Multiprocessing) :
  get_context_Process method (set_context_Process m c mp)
  = if decide (m = method) then c else get_context_Process method mp.
Proof.
  unfold get_context_Process, set_context_Process. simpl.
  rewrite lookup_insert. by case_decide.
Qed.

Lemma get_context_Process_set_mp (method : string) (v : ModuleValue) (mp : Multiprocessing) :
  get_context_Process method (set_mp_Process v mp) = get_context_Process method mp.
Proof. done. Qed.

Lemma spawn_overridden (mp : Multiprocessing) :
  overridden "spawn" mp = bool_decide ("spawn" ∈ all_start_methods mp).
Proof. unfold overridden, start_methods. rewrite bool_decide_eq_true_2; [done|]. by left. Qed.

Lemma forkserver_overridden (mp : Multiprocessing) :
  overridden "forkserver" mp = bool_decide ("forkserver" ∈ all_start_methods mp).
Proof.
  unfold overridden, start_methods. rewrite bool_decide_eq_true_2; [done|]. right. by left.
Qed.

Lemma other_not_overridden (method : string) (mp : Multiprocessing) :
  method ≠ "spawn" → method ≠ "forkserver" → overridden method mp = false.
Proof.
  intros Hs Hf. unfold overridden, start_methods. rewrite bool_decide_eq_false_2; [done|].
  intros [->|[->|[]%elem_of_nil]%elem_of_cons]%elem_of_cons; done.
Qed.

(** What one iteration of each loop does to what the fixture touches. *)
Lemma override_method_spec (mp : Multiprocessing) (saved : gmap string ProcessClass)
    (m method : string) :
  let hit := bool_decide (m ∈ all_start_methods mp) in
  let state := override_method (mp, saved) m in
  all_start_methods state.1 = all_start_methods mp
  ∧ start_method state.1 = start_method mp
  ∧ get_context_Process method state.1
    = (if hit && bool_decide (m = method) then MockSpawnProcess
       else get_context_Process method mp)
  ∧ mp_Process state.1
    = (if hit && bool_decide (m = start_method mp) then AClass MockSpawnProcess
       else mp_Process mp)
  ∧ state.2 !! method
    = (if hit && bool_decide (m = method) then Some (get_context_Process m mp)
       else saved !! method).
Proof.
  intros hit state. unfold state, hit, override_method.
  destruct (bool_decide (m ∈ all_start_methods mp)); simpl; [|done].
  destruct (bool_decide (m = start_method mp)); simpl;
    rewrite ?get_context_Process_set_mp, get_context_Process_set, lookup_insert;
    repeat split; try done; by case_decide; case_bool_decide.
Qed.

Lemma restore_method_spec (mp : Multiprocessing) (saved : gmap string ProcessClass)
    (m method : string) (c : ProcessClass) :
  saved !! m = Some c →
  let hit := bool_decide (m ∈ all_start_methods mp) in
  let mp' := restore_method saved mp m in
  all_start_methods mp' = all_start_methods mp
  ∧ start_method mp' = start_method mp
  ∧ get_context_Process method mp'
    = (if hit && bool_decide (m = method) then c else get_context_Process method mp)
  ∧ mp_Process mp'
    = (if hit && bool_decide (m = start_method mp) then ADict saved else mp_Process mp).
Proof.
  intros Hsaved hit mp'. unfold mp', hit, restore_method. rewrite Hsaved.
  destruct (bool_decide (m ∈ all_start_methods mp)); simpl; [|done].
  destruct (bool_decide (m = start_method mp)); simpl;
    rewrite ?get_context_Process_set_mp, get_context_Process_set;
    repeat split; try done; by case_decide; case_bool_decide.
Qed.

Lemma restore_method_skipped (mp : Multiprocessing) (saved : gmap string ProcessClass) (m : string) :
  bool_decide (m ∈ all_start_methods mp) = false → restore_method saved mp m = mp.
Proof. intros Hskip. unfold restore_method. by rewrite Hskip. Qed.

(** X17. While the fixture [process_override] is active, the contexts of the
    available start methods among spawn and forkserver both hand out
    [MockSpawnProcess] ([MockForkServerProcess] is bound nowhere), and so
    does [multiprocessing.Process] when the current start method is one of
    them. After the [finally] block every context has its class back, but
    [multiprocessing.Process] is then bound to the dictionary of the saved
    classes, not to a class; it is left alone only when the current start
    method was not overridden. *)
Theorem process_override_round_trip (mp : Multiprocessing) (method : string) :
  let mp1 := (process_override_setup mp).1 in
  let saved := (process_override_setup mp).2 in
  let mp2 := process_override_finally saved mp1 in
  get_context_Process method mp1
  = (if overridden method mp then MockSpawnProcess else get_context_Process method mp)
  ∧ mp_Process mp1
    = (if overridden (start_method mp) mp then AClass MockSpawnProcess else mp_Process mp)
  ∧ get_context_Process method mp2 = get_context_Process method mp
  ∧ mp_Process mp2
    = (if overridden (start_method mp) mp then ADict saved else mp_Process mp)
  ∧ saved !! method
    = (if overridden method mp then Some (get_context_Process method mp) else None).
Proof.
  intros mp1 saved mp2.
  (* the setup, one start method after the other *)
  pose (sa := override_method (mp, ∅) "spawn").
  pose (sb := override_method sa "forkserver").
  assert (process_override_setup mp = sb) as Hsetup by done.
  assert (∀ x, all_start_methods sa.1 = all_start_methods mp
               ∧ start_method sa.1 = start_method mp
               ∧ get_context_Process x sa.1
                 = (if bool_decide ("spawn" ∈ all_start_methods mp) && bool_decide ("spawn" = x)
                    then MockSpawnProcess else get_context_Process x mp)
               ∧ mp_Process sa.1
                 = (if bool_decide ("spawn" ∈ all_start_methods mp)
                       && bool_decide ("spawn" = start_method mp)
                    then AClass MockSpawnProcess else mp_Process mp)
               ∧ sa.2 !! x
                 = (if bool_decide ("spawn" ∈ all_start_methods mp) && bool_decide ("spawn" = x)
                    then Some (get_context_Process "spawn" mp) else None)) as Ha.
  { intros x. pose proof (override_method_spec mp ∅ "spawn" x) as H.
    rewrite lookup_empty in H. exact H. }
  assert (∀ x, all_start_methods sb.1 = all_start_methods mp
               ∧ start_method sb.1 = start_method mp
               ∧ get_context_Process x sb.1
                 = (if overridden x mp then MockSpawnProcess else get_context_Process x mp)
               ∧ mp_Process sb.1
                 = (if overridden (start_method mp) mp
                    then AClass MockSpawnProcess else mp_Process mp)
               ∧ sb.2 !! x
                 = (if overridden x mp then Some (get_context_Process x mp) else None)) as Hb.
  { intros x. destruct (Ha x) as (Hall & Hsm & Hctx & Hproc & Hsav).
    destruct (Ha "forkserver") as (_ & _ & Hctxf & _ & _).
    pose proof (override_method_spec sa.1 sa.2 "forkserver" x) as H.
    replace (sa.1, sa.2) with sa in H by by destruct sa.
    fold sb in H. cbv zeta in H. rewrite Hall, Hsm, Hctx, Hproc, Hsav, Hctxf in H.
    destruct H as (H1 & H2 & H3 & H4 & H5).
    split; [done|]. split; [done|].
    rewrite H3, H4, H5. clear H1 H2 H3 H4 H5 Hctx Hproc Hsav Hctxf.
    destruct (decide (x = "spawn")) as [->|Hxs];
      [|destruct (decide (x = "forkserver")) as [->|Hxf]];
      (destruct (decide (start_method mp = "spawn")) as [Hms|Hms];
       [|destruct (decide (start_method mp = "forkserver")) as [Hmf|Hmf]]);
      rewrite ?Hms, ?Hmf, ?spawn_overridden, ?forkserver_overridden,
        ?other_not_overridden by done;
      destruct (bool_decide ("spawn" ∈ all_start_methods mp));
      destruct (bool_decide ("forkserver" ∈ all_start_methods mp));
      simpl; repeat case_bool_decide; simplify_eq; done. }
  (* the finally block *)
  assert (mp1 = sb.1) as Hmp1 by done.
  assert (saved = sb.2) as Hsaved by done.
  destruct (Hb method) as (Hall & Hsm & Hctx & Hproc & Hsav).
  split; [by rewrite Hmp1|]. split; [by rewrite Hmp1|].
  enough (get_context_Process method mp2 = get_context_Process method mp
          ∧ mp_Process mp2
            = (if overridden (start_method mp) mp then ADict saved else mp_Process mp))
    as [Hctx2 Hproc2].
  { split; [exact Hctx2|]. split; [exact Hproc2|]. by rewrite Hsaved. }
  unfold mp2, process_override_finally, start_methods. cbn [foldl].
  rewrite Hmp1, Hsaved.
  (* spawn *)
  assert (∀ x, all_start_methods (restore_method sb.2 sb.1 "spawn") = all_start_methods mp
               ∧ start_method (restore_method sb.2 sb.1 "spawn") = start_method mp
               ∧ get_context_Process x (restore_method sb.2 sb.1 "spawn")
                 = (if decide (x = "spawn") then get_context_Process x mp
                    else get_context_Process x sb.1)
               ∧ mp_Process (restore_method sb.2 sb.1 "spawn")
                 = (if bool_decide ("spawn" ∈ all_start_methods mp)
                       && bool_decide ("spawn" = start_method mp)
                    then ADict sb.2 else mp_Process sb.1)) as Hc.
  { intros x. destruct (Hb "spawn") as (_ & _ & Hctxs & _ & Hsavs).
    rewrite spawn_overridden in Hctxs, Hsavs.
    destruct (bool_decide ("spawn" ∈ all_start_methods mp)) eqn:Hav.
    - pose proof (restore_method_spec sb.1 sb.2 "spawn" x _ Hsavs) as H.
      cbv zeta in H. rewrite Hall, Hsm, Hav in H. destruct H as (H1 & H2 & H3 & H4).
      split; [done|]. split; [done|]. rewrite H3, H4. simpl.
      split; [|done].
      destruct (decide (x = "spawn")) as [->|Hx];
        [by rewrite bool_decide_eq_true_2|by rewrite bool_decide_eq_false_2].
    - rewrite restore_method_skipped by (by rewrite Hall).
      split; [done|]. split; [done|]. simpl. split; [|done].
      destruct (decide (x = "spawn")) as [->|Hx]; [|done].
      destruct (Ha "spawn") as (_ & _ & Hctxa & _ & _).
      destruct (Hb "spawn") as (_ & _ & Hctxb & _ & _).
      rewrite spawn_overridden, Hav in Hctxb. done. }
  set (mc := restore_method sb.2 sb.1 "spawn") in *.
  assert (get_context_Process method (restore_method sb.2 mc "forkserver")
          = get_context_Process method mp
          ∧ mp_Process (restore_method sb.2 mc "forkserver")
            = (if overridden (start_method mp) mp then ADict sb.2 else mp_Process mp)) as Hd.
  { destruct (Hc method) as (Hallc & Hsmc & Hctxc & Hprocc).
    destruct (Hb "forkserver") as (_ & _ & Hctxf & _ & Hsavf).
    rewrite forkserver_overridden in Hctxf, Hsavf.
    destruct (bool_decide ("forkserver" ∈ all_start_methods mp)) eqn:Hav.
    - pose proof (restore_method_spec mc sb.2 "forkserver" method _ Hsavf) as H.
      cbv zeta in H. rewrite Hallc, Hsmc, Hav, Hctxc, Hprocc, Hctx, Hproc in H.
      destruct H as (_ & _ & H3 & H4). rewrite H3, H4. clear H3 H4.
      destruct (decide (method = "spawn")) as [->|Hxs];
        [|destruct (decide (method = "forkserver")) as [->|Hxf]];
        (destruct (decide (start_method mp = "spawn")) as [Hms|Hms];
         [|destruct (decide (start_method mp = "forkserver")) as [Hmf|Hmf]]);
        rewrite ?Hms, ?Hmf, ?spawn_overridden, ?forkserver_overridden,
          ?other_not_overridden by done;
        rewrite ?Hav;
        destruct (bool_decide ("spawn" ∈ all_start_methods mp));
        simpl; repeat case_bool_decide; simplify_eq; done.
    - rewrite restore_method_skipped by (by rewrite Hallc).
      rewrite Hctxc, Hprocc, Hctx, Hproc.
      destruct (decide (method = "spawn")) as [->|Hxs];
        [|destruct (decide (method = "forkserver")) as [->|Hxf]];
        (destruct (decide (start_method mp = "spawn")) as [Hms|Hms];
         [|destruct (decide (start_method mp = "forkserver")) as [Hmf|Hmf]]);
        rewrite ?Hms, ?Hmf, ?spawn_overridden, ?forkserver_overridden,
          ?other_not_overridden by done;
        rewrite ?Hav;
        destruct (bool_decide ("spawn" ∈ all_start_methods mp));
        simpl; repeat case_bool_decide; simplify_eq; done. }
  exact Hd.
Qed.

Section workers.

Context {ExecutorCreationFunc Queue LogInit Contexts : Type}.
Variable process_wrapper : @WorkerArgs ExecutorCreationFunc Queue LogInit Contexts → TestEnv → TestEnv.
Variable run_other : string → @WorkerArgs ExecutorCreationFunc Queue LogInit Contexts → TestEnv → TestEnv.

(** X18. A process made by one of the mock process classes with the target
    [_process_wrapper] runs [setup_recording] in the child first and then
    [_process_wrapper] with the same five arguments, so that in recording or
    replaying mode the worker starts with the three names of the [tool]
    decorator mocked; with any other target, or none, the process runs as
    the base class would run it. *)
Theorem mock_process_runs_setup_first (args : WorkerArgs) (env : TestEnv) (name : string) :
  run_target process_wrapper run_other (Mock_init_target (Some _process_wrapper)) args env
  = process_wrapper args (setup_recording env).1
  ∧ (is_replaying_mode env || is_recording_mode env = true →
     ∀ target, target ∈ patch_targets →
       binding (setup_recording env).1 target
       = mock_tool (binding env "promptflow._core.tool.tool"))
  ∧ run_target process_wrapper run_other (Mock_init_target (Some (other_target name))) args env
    = run_other name args env
  ∧ run_target process_wrapper run_other (Mock_init_target None) args env = env.
Proof.
  split; [|split; [|done]].
  - simpl. unfold mock_process_wrapper. by destruct args.
  - intros Hmode target Hin.
    rewrite (setup_recording_in_mode env Hmode). cbn [fst].
    rewrite !binding_rebind, binding_override.
    unfold patch_targets in Hin.
    repeat (apply elem_of_cons in Hin as [->|Hin]; [by repeat case_decide|]).
    by apply elem_of_nil in Hin.
Qed.

End workers.

Lemma mock_process_runs_setup_first_witness :
  let env := {| is_replaying_mode := true; is_recording_mode := false;
                storage_file := None; bindings := ∅ |} in
  let args := {| executor_creation_func := (); input_queue := (); output_queue := ();
                 log_context_initialization_func := (); operation_contexts_dict := () |} in
  run_target (λ _ child, child) (λ _ _ child, child)
    (Mock_init_target (Some _process_wrapper)) args env
  = (setup_recording env).1
  ∧ ∀ target, target ∈ patch_targets →
      binding (setup_recording env).1 target = mock_tool original_tool.
Proof.
  intros env args.
  destruct (mock_process_runs_setup_first (λ _ child, child) (λ _ _ child, child) args env "")
    as (Hrun & Hmocked & _).
  split; [exact Hrun|]. apply Hmocked. reflexivity.
Defined.

End conftest_facts.

(** ** The assertions and the polling helper of test_experiment.py *)

Module test_facts.
Import experiment test_experiment.

(** X19. The assertion of the restart test holds of every history, whatever the
    statuses of its runs: each element of the generator is a one-element
    list, which is true as a list even when the comparison inside is
    false. *)
Theorem restart_assertion_always_holds (node_runs : gmap string (list NodeRun)) (runs : list NodeRun) :
  restart_assertion runs = true ∧ restart_assertions node_runs = true.
Proof.
  assert (∀ l, restart_assertion l = true) as Hone.
  { intros l. unfold restart_assertion. by induction l. }
  split; [done|]. unfold restart_assertions.
  induction (map_to_list node_runs) as [|item items IH]; simpl; [done|].
  by rewrite Hone, IH.
Qed.

Example restart_assertion_on_failed_runs :
  restart_assertion [ {| run_name := "main_2"; run_status := RunFailed |} ] = true.
Proof. reflexivity. Qed.

Lemma first_failure_passed (outcomes : list TestOutcome) :
  first_failure outcomes = Passed ↔ Forall (λ o, o = Passed) outcomes.
Proof.
  induction outcomes as [|o outcomes IH]; simpl.
  - split; [constructor|done].
  - destruct o; rewrite ?IH; split; try done.
    + by constructor.
    + by inversion 1.
    + by inversion 1.
    + by inversion 1.
Qed.

(** X20. The assertions of the script test pass exactly when the status is
    [Terminated], there are four histories, and each history has a first run
    that is [Completed]; no run after the first is looked at. *)
Theorem script_start_assertions_pass (status : ExperimentStatus) (items : list (string * list NodeRun)) :
  script_start_assertions status items = Passed
  ↔ status = Terminated
    ∧ length items = 4
    ∧ ∀ item, item ∈ items →
        ∃ run later, item.2 = run :: later ∧ run_status run = RunCompleted.
Proof.
  unfold script_start_assertions.
  case_bool_decide as Hs; simpl; [|split; [done|by intros [? _]]].
  case_bool_decide as Hn; simpl; [|split; [done|by intros (_ & ? & _)]].
  rewrite first_failure_passed, Forall_fmap, Forall_forall.
  split.
  - intros Hall. split; [done|]. split; [done|].
    intros item Hin. specialize (Hall item Hin). simpl in Hall.
    unfold first_run_assertion in Hall.
    destruct item.2 as [|run later]; [done|].
    case_bool_decide; [|done]. by exists run, later.
  - intros (_ & _ & Hall) item Hin. simpl.
    destruct (Hall item Hin) as (run & later & -> & Hrun).
    unfold first_run_assertion. by rewrite bool_decide_eq_true_2.
Qed.

Lemma wait_counting_status (s : ExperimentStatus) (polls : list ExperimentStatus) :
  wait_for_experiment_terminated s polls = snd <$> wait_counting s polls.
Proof.
  revert s. induction polls as [|p polls IH]; intros s; simpl.
  - by case_bool_decide.
  - case_bool_decide; [|done]. rewrite IH.
    by destruct (wait_counting p polls) as [[n final]|].
Qed.

(** X21. [wait_for_experiment_terminated] returns the first status that is neither
    [InProgress] nor [Queuing] among the status it is given and those the
    calls to [get] return, after as many calls to [get] (each followed by a
    sleep of ten seconds) as statuses come before it; it makes no call when
    the status it is given is already such, and it does not return as long
    as there is none. *)
Theorem wait_returns_first_inactive (s : ExperimentStatus) (polls : list ExperimentStatus) :
  wait_counting s polls = list_find (λ x, x ∉ [InProgress; Queuing]) (s :: polls)
  ∧ wait_for_experiment_terminated s polls
    = snd <$> list_find (λ x, x ∉ [InProgress; Queuing]) (s :: polls).
Proof.
  assert (wait_counting s polls = list_find (λ x, x ∉ [InProgress; Queuing]) (s :: polls)) as Hcount.
  { revert s. induction polls as [|p polls IH]; intros s.
    - simpl. case_bool_decide as Hs.
      + by rewrite decide_False by tauto.
      + by rewrite decide_True.
    - cbn [wait_counting]. rewrite IH.
      change (list_find (λ x, x ∉ [InProgress; Queuing]) (s :: p :: polls))
        with (if decide (s ∉ [InProgress; Queuing]) then Some (0, s)
              else prod_map S id <$> list_find (λ x, x ∉ [InProgress; Queuing]) (p :: polls)).
      case_bool_decide as Hs.
      + rewrite decide_False by tauto.
        by destruct (list_find _ (p :: polls)) as [[n final]|].
      + by rewrite decide_True. }
  split; [done|]. by rewrite wait_counting_status, Hcount.
Qed.

End test_facts.
